(** * collect_files: discovery, classification, decoding and ingestion

  A shallow embedding of [collect_files.py] and the properties of its
  directory discovery engine, its binary sniffing, its encoding
  resolver and its streaming ingestion pipeline.

  Conventions of the embedding:
  - a Python [bytes] value is a [list byte];
  - a Python [str] is the list of its code points ([list Z]);
  - a Python [int] is a [Z];
  - an operation that may raise returns an [option] ([None] = raised);
  - a [set] is a [gset], a [dict] keyed by strings a [gmap]. *)

From Stdlib Require Import ZArith List Floats Uint63 Lia.
From Stdlib Require Import Strings.Byte.
From stdpp Require Import base option list gmap sets strings.

#[local] Open Scope Z_scope.
#[local] Set Warnings "-inexact-float,-clear-no-such-hyp".

(** ** Bytes *)

Module Bytes.

(** The integer a byte stands for, as iteration over [bytes] gives it. *)
Definition byte_val (b : byte) : Z := Z.of_N (Byte.to_N b).

(** The byte of an integer in [0, 256); other integers give [x00]
    (no caller passes one). *)
Definition byte_of (z : Z) : byte :=
  match Byte.of_N (Z.to_N z) with
  | Some b => b
  | None => x00
  end.

End Bytes.
Import Bytes.

(** ** Content classifier ([looks_binary_bytes]) *)

Module Classifier.

(** [bytearray({7,8,9,10,12,13,27} | set(range(0x20, 0x100)))] *)
Definition text_chars : list Z :=
  [7; 8; 9; 10; 12; 13; 27] ++ seqZ 0x20 (0x100 - 0x20).

(** [b in text_chars] *)
Definition in_text_chars (b : byte) : bool :=
  bool_decide (byte_val b ∈ text_chars).

(** [b'\x00' in sample] *)
Definition has_null (sample : list byte) : bool :=
  existsb (fun b => byte_val b =? 0) sample.

(** [sum(1 for b in sample if b not in text_chars)] *)
Definition nontext (sample : list byte) : nat :=
  length (List.filter (fun b => negb (in_text_chars b)) sample).

(** Python's [int / int] on small integers: both operands are converted
    to binary64 exactly and divided with IEEE rounding. *)
Definition float_of_nat (n : nat) : float :=
  PrimFloat.of_uint63 (Uint63.of_Z (Z.of_nat n)).

Definition true_div (a b : nat) : float :=
  PrimFloat.div (float_of_nat a) (float_of_nat b).

(** [ratio > 0.30], the literal being the binary64 nearest to 3/10. *)
Definition exceeds_threshold (ratio : float) : bool :=
  PrimFloat.ltb 0.30%float ratio.

Definition looks_binary_bytes (data : list byte) : bool :=
  match data with
  | [] => false
  | _ =>
      let sample := take 1024 data in
      if has_null sample then true
      else
        let ratio := true_div (nontext sample) (Nat.max 1 (length sample)) in
        exceeds_threshold ratio
  end.

End Classifier.

(** ** Codecs

  The decoders and the encoder behind [bytes.decode] and [str.encode],
  for the encodings the tool names.  A text is the list of its code
  points. *)

Module Codecs.

Definition text := list Z.

Inductive error_mode := strict | replace.

Definition is_continuation (c : Z) : bool := (0x80 <=? c) && (c <? 0xC0).

Definition is_surrogate (c : Z) : bool := (0xD800 <=? c) && (c <=? 0xDFFF).

Definition is_scalar (c : Z) : bool :=
  (0 <=? c) && (c <=? 0x10FFFF) && negb (is_surrogate c).

(** What the error handler does with a malformed sequence: [strict]
    raises, [replace] puts U+FFFD and goes on with the bytes after it. *)
Definition on_error (errors : error_mode) (rest : option text) : option text :=
  match errors with
  | strict => None
  | replace => cons 0xFFFD <$> rest
  end.

(** The UTF-8 decoder: shortest forms only, no surrogates, nothing above
    U+10FFFF.  A malformed sequence ends at the first byte that cannot
    continue it; a sequence cut by the end of the data takes all that is
    left. *)
Fixpoint utf8_decode (errors : error_mode) (bs : list byte) {struct bs}
  : option text :=
  match bs with
  | [] => Some []
  | b0 :: r0 =>
    let c0 := byte_val b0 in
    if c0 <? 0x80 then cons c0 <$> utf8_decode errors r0
    else if c0 <? 0xC2 then on_error errors (utf8_decode errors r0)
    else if c0 <? 0xE0 then
      match r0 with
      | [] => on_error errors (Some [])
      | b1 :: r1 =>
        let c1 := byte_val b1 in
        if is_continuation c1
        then cons ((c0 - 0xC0) * 64 + (c1 - 0x80)) <$> utf8_decode errors r1
        else on_error errors (utf8_decode errors r0)
      end
    else if c0 <? 0xF0 then
      match r0 with
      | [] => on_error errors (Some [])
      | b1 :: r1 =>
        let c1 := byte_val b1 in
        if negb (is_continuation c1)
           || (if c1 <? 0xA0 then c0 =? 0xE0 else c0 =? 0xED)
        then on_error errors (utf8_decode errors r0)
        else
          match r1 with
          | [] => on_error errors (Some [])
          | b2 :: r2 =>
            let c2 := byte_val b2 in
            if is_continuation c2
            then cons ((c0 - 0xE0) * 4096 + (c1 - 0x80) * 64 + (c2 - 0x80))
                   <$> utf8_decode errors r2
            else on_error errors (utf8_decode errors r1)
          end
      end
    else if c0 <? 0xF5 then
      match r0 with
      | [] => on_error errors (Some [])
      | b1 :: r1 =>
        let c1 := byte_val b1 in
        if negb (is_continuation c1)
           || (if c1 <? 0x90 then c0 =? 0xF0 else c0 =? 0xF4)
        then on_error errors (utf8_decode errors r0)
        else
          match r1 with
          | [] => on_error errors (Some [])
          | b2 :: r2 =>
            let c2 := byte_val b2 in
            if negb (is_continuation c2)
            then on_error errors (utf8_decode errors r1)
            else
              match r2 with
              | [] => on_error errors (Some [])
              | b3 :: r3 =>
                let c3 := byte_val b3 in
                if is_continuation c3
                then cons ((c0 - 0xF0) * 262144 + (c1 - 0x80) * 4096
                           + (c2 - 0x80) * 64 + (c3 - 0x80))
                       <$> utf8_decode errors r3
                else on_error errors (utf8_decode errors r2)
              end
          end
      end
    else on_error errors (utf8_decode errors r0)
  end.

(** The UTF-8 bytes of one code point; [None] where [str.encode] raises
    (a surrogate) or the number is no code point. *)
Definition utf8_encode_char (c : Z) : option (list byte) :=
  if negb (is_scalar c) then None
  else if c <? 0x80 then Some [byte_of c]
  else if c <? 0x800 then
    Some [byte_of (0xC0 + c / 64); byte_of (0x80 + c mod 64)]
  else if c <? 0x10000 then
    Some [byte_of (0xE0 + c / 4096); byte_of (0x80 + (c / 64) mod 64);
          byte_of (0x80 + c mod 64)]
  else
    Some [byte_of (0xF0 + c / 262144); byte_of (0x80 + (c / 4096) mod 64);
          byte_of (0x80 + (c / 64) mod 64); byte_of (0x80 + c mod 64)].

(** [txt.encode("utf-8")] *)
Fixpoint utf8_encode (t : text) : option (list byte) :=
  match t with
  | [] => Some []
  | c :: t' =>
    match utf8_encode_char c, utf8_encode t' with
    | Some bs, Some bs' => Some (bs ++ bs')
    | _, _ => None
    end
  end.

(** [utf-8-sig]: one leading byte order mark EF BB BF is dropped. *)
Definition utf8_sig_decode (bs : list byte) : option text :=
  match bs with
  | b0 :: b1 :: b2 :: rest =>
    if (byte_val b0 =? 0xEF) && (byte_val b1 =? 0xBB) && (byte_val b2 =? 0xBF)
    then utf8_decode strict rest
    else utf8_decode strict bs
  | _ => utf8_decode strict bs
  end.

(** The 16-bit units of a byte string; an odd byte left over is an
    error (truncated data). *)
Fixpoint utf16_units (little : bool) (bs : list byte) : option (list Z) :=
  match bs with
  | [] => Some []
  | [_] => None
  | b0 :: b1 :: rest =>
    let u := if little then byte_val b0 + 256 * byte_val b1
             else 256 * byte_val b0 + byte_val b1 in
    cons u <$> utf16_units little rest
  end.

(** Surrogate pairs are joined; a surrogate on its own is an error. *)
Fixpoint utf16_join (us : list Z) : option text :=
  match us with
  | [] => Some []
  | u :: r =>
    if (0xD800 <=? u) && (u <=? 0xDBFF) then
      match r with
      | [] => None
      | lo :: r' =>
        if (0xDC00 <=? lo) && (lo <=? 0xDFFF)
        then cons (0x10000 + (u - 0xD800) * 1024 + (lo - 0xDC00))
               <$> utf16_join r'
        else None
      end
    else if (0xDC00 <=? u) && (u <=? 0xDFFF) then None
    else cons u <$> utf16_join r
  end.

Definition utf16_decode_order (little : bool) (bs : list byte) : option text :=
  utf16_units little bs ≫= utf16_join.

(** The byte order of the machine, used by [utf-16] when the data has no
    byte order mark. *)
Definition native_little_endian : bool := true.

(** [utf-16]: a leading FF FE or FE FF selects the byte order and is
    dropped. *)
Definition utf16_decode (bs : list byte) : option text :=
  match bs with
  | b0 :: b1 :: rest =>
    let bom := byte_val b1 * 256 + byte_val b0 in
    if bom =? 0xFEFF then utf16_decode_order true rest
    else if bom =? 0xFFFE then utf16_decode_order false rest
    else utf16_decode_order native_little_endian bs
  | _ => utf16_decode_order native_little_endian bs
  end.

(** [latin-1]: every byte is the code point of the same number, so
    no byte sequence is malformed and the error handler is never used. *)
Definition latin1_text (bs : list byte) : text := byte_val <$> bs.

Definition latin1_decode (bs : list byte) : option text :=
  Some (latin1_text bs).

(** Windows-1252: 80..9F are remapped, five of them are undefined. *)
Definition cp1252_high : list (option Z) :=
  [Some 0x20AC; None; Some 0x201A; Some 0x0192; Some 0x201E; Some 0x2026;
   Some 0x2020; Some 0x2021; Some 0x02C6; Some 0x2030; Some 0x0160;
   Some 0x2039; Some 0x0152; None; Some 0x017D; None;
   None; Some 0x2018; Some 0x2019; Some 0x201C; Some 0x201D; Some 0x2022;
   Some 0x2013; Some 0x2014; Some 0x02DC; Some 0x2122; Some 0x0161;
   Some 0x203A; Some 0x0153; None; Some 0x017E; Some 0x0178].

Definition cp1252_char (b : byte) : option Z :=
  let c := byte_val b in
  if (0x80 <=? c) && (c <? 0xA0)
  then mjoin (cp1252_high !! Z.to_nat (c - 0x80))
  else Some c.

Definition cp1252_decode (bs : list byte) : option text :=
  mapM cp1252_char bs.

(** [data.decode(enc)]; a name that is no codec raises as well. *)
Definition bytes_decode (enc : string) (data : list byte) : option text :=
  if decide (enc = "utf-8") then utf8_decode strict data
  else if decide (enc = "utf-8-sig") then utf8_sig_decode data
  else if decide (enc = "utf-16") then utf16_decode data
  else if decide (enc = "utf-16-le") then utf16_decode_order true data
  else if decide (enc = "utf-16-be") then utf16_decode_order false data
  else if decide (enc = "latin-1") then latin1_decode data
  else if decide (enc = "cp1252") then cp1252_decode data
  else None.

End Codecs.
Import Codecs.

(** ** Encoding resolver ([try_decode]) *)

Module Resolver.

Definition COMMON_ENCODINGS : list string :=
  ["utf-8"; "utf-8-sig"; "utf-16"; "utf-16-le"; "utf-16-be"; "latin-1";
   "cp1252"].

(** The [for enc in COMMON_ENCODINGS] loop: the first encoding that
    decodes without raising. *)
Fixpoint first_decoding (encodings : list string) (data : list byte)
  : option (text * string) :=
  match encodings with
  | [] => None
  | enc :: rest =>
    match bytes_decode enc data with
    | Some txt => Some (txt, enc)
    | None => first_decoding rest data
    end
  end.

Definition try_decode (data : list byte) : text * string :=
  match first_decoding COMMON_ENCODINGS data with
  | Some r => r
  | None =>
    match utf8_decode replace data with
    | Some txt => (txt, "utf-8-replace")
    | None => (latin1_text data, "latin1-replace")
    end
  end.

End Resolver.
Import Resolver.

(** ** Discovery engine ([is_hidden], [discover_files]) *)

Module Discovery.

(** A [Path] is the list of its components; [Path.name] is the last. *)
Definition path := list string.

Definition name (p : path) : string := List.last p "".

(** [("path", resolved)] or [("inode", st_ino, st_dev)] *)
Inductive key :=
| KeyPath (resolved : string)
| KeyInode (ino dev : Z).

#[export] Instance key_eq_dec : EqDecision key.
Proof. solve_decision. Defined.

#[export] Instance key_countable : Countable key.
Proof.
  refine (inj_countable'
    (fun k => match k with
              | KeyPath s => inl s
              | KeyInode i d => inr (i, d)
              end)
    (fun x => match x with
              | inl s => KeyPath s
              | inr (i, d) => KeyInode i d
              end) _).
  intros []; reflexivity.
Defined.

(** What [getattr(st, "st_ino", None)] and [getattr(st, "st_dev", None)]
    give for a stat result. *)
Record stat_result := { st_ino : option Z; st_dev : option Z }.

(** The file system as the traversal observes it.  A call that may
    raise returns an [option]. *)
Record FS := {
  path_is_file : path -> bool;                       (* p.is_file() *)
  path_is_dir : path -> bool;                        (* p.is_dir() *)
  path_exists : path -> bool;                        (* p.exists() *)
  scandir : path -> option (list string);            (* names of os.scandir(p) *)
  entry_stat : path -> bool -> option stat_result;   (* entry.stat(follow_symlinks=b) *)
  entry_is_file : path -> bool -> option bool;       (* entry.is_file(follow_symlinks=b) *)
  entry_is_dir : path -> bool -> option bool;        (* entry.is_dir(follow_symlinks=b) *)
  resolve : path -> option string;                   (* str(p.resolve()) *)
  absolute : path -> string;                         (* str(p.absolute()) *)
  os_name_nt : bool;                                 (* os.name == 'nt' *)
  GetFileAttributesW : path -> option Z;             (* the Windows call *)
}.

Record Options := {
  include_hidden : bool;
  follow_symlinks : bool;
  max_depth : option Z;
}.

Definition starts_with_dot (s : string) : bool := String.prefix "." s.

Definition is_hidden (fs : FS) (p : path) : bool :=
  if starts_with_dot (name p) then true
  else if os_name_nt fs then
    match GetFileAttributesW fs p with
    | Some attrs =>
      if attrs =? -1 then false else negb (Z.land attrs 2 =? 0)
    | None => false
    end
  else false.

(** The key built for the entry at [p] (lines 165-191). *)
Definition entry_key (fs : FS) (follow : bool) (p : path) : key :=
  let '(ino, dev) :=
    match entry_stat fs p follow with
    | Some st => (st_ino st, st_dev st)
    | None => (None, None)
    end in
  match ino, dev with
  | Some i, Some d =>
    if (i =? 0) && (d =? 0)
    then KeyPath (default (absolute fs p) (resolve fs p))
    else KeyInode i d
  | _, _ => KeyPath (default (absolute fs p) (resolve fs p))
  end.

(** [is_f] and [is_d], with the fallback to the path's own checks when
    either entry call raises. *)
Definition entry_kind (fs : FS) (follow : bool) (p : path) : bool * bool :=
  match entry_is_file fs p follow, entry_is_dir fs p follow with
  | Some f, Some d => (f, d)
  | _, _ => (path_is_file fs p, path_is_dir fs p)
  end.

Definition frame : Type := path * Z.

(** The state of the [for entry in entries] loop: the paths yielded so
    far, [seen_keys], and the stack (its top is the head). *)
Definition scan_state : Type := list path * gset key * list frame.

(** One pass of the body of [for entry in entries]. *)
Definition scan_entry (fs : FS) (o : Options) (current_dir : path)
    (depth : Z) (entry_name : string) (st : scan_state) : scan_state :=
  let '(yielded, seen_keys, stack) := st in
  let p := current_dir ++ [entry_name] in
  if negb (include_hidden o) && is_hidden fs p then st
  else
    let k := entry_key fs (follow_symlinks o) p in
    if decide (k ∈ seen_keys) then st
    else
      let seen_keys := {[k]} ∪ seen_keys in
      let '(is_f, is_d) := entry_kind fs (follow_symlinks o) p in
      if is_f then (yielded ++ [p], seen_keys, stack)
      else if is_d then
        match max_depth o with
        | None => (yielded, seen_keys, (p, depth + 1) :: stack)
        | Some m =>
          if depth + 1 <=? m
          then (yielded, seen_keys, (p, depth + 1) :: stack)
          else (yielded, seen_keys, stack)
        end
      else (yielded, seen_keys, stack).

Definition scan_entries (fs : FS) (o : Options) (current_dir : path)
    (depth : Z) (entries : list string) (st : scan_state) : scan_state :=
  foldl (fun st e => scan_entry fs o current_dir depth e st) st entries.

(** The [while stack] loop.  [fuel] bounds the number of frames popped;
    [None] means the bound was reached first. *)
Fixpoint walk (fuel : nat) (fs : FS) (o : Options) (st : scan_state)
  : option (list path * gset key) :=
  let '(yielded, seen_keys, stack) := st in
  match stack with
  | [] => Some (yielded, seen_keys)
  | (current_dir, depth) :: stack =>
    match fuel with
    | O => None
    | S fuel =>
      if negb (include_hidden o) && is_hidden fs current_dir
      then walk fuel fs o (yielded, seen_keys, stack)
      else
        match scandir fs current_dir with
        | None => walk fuel fs o (yielded, seen_keys, stack)
        | Some entries =>
          walk fuel fs o
            (scan_entries fs o current_dir depth entries
               (yielded, seen_keys, stack))
        end
    end
  end.

(** The [for root in inputs] loop, from the paths yielded and the keys
    seen so far. *)
Fixpoint discover_from (fuel : nat) (fs : FS) (o : Options)
    (inputs : list path) (yielded : list path) (seen_keys : gset key)
  : option (list path * gset key) :=
  match inputs with
  | [] => Some (yielded, seen_keys)
  | root :: inputs =>
    if path_is_file fs root
    then discover_from fuel fs o inputs (yielded ++ [root]) seen_keys
    else if negb (path_exists fs root)
    then discover_from fuel fs o inputs yielded seen_keys
    else
      match walk fuel fs o (yielded, seen_keys, [(root, 0)]) with
      | None => None
      | Some (yielded, seen_keys) =>
        discover_from fuel fs o inputs yielded seen_keys
      end
  end.

(** The paths [discover_files] yields when it is run to its end. *)
Definition discover_files (fuel : nat) (fs : FS) (o : Options)
    (inputs : list path) : option (list path) :=
  fst <$> discover_from fuel fs o inputs [] ∅.

End Discovery.
Import Discovery.

(** ** Ingestion pipeline ([process_files_sequential]) *)

Module Ingestion.
Import Classifier.

(** [class Summary] *)
Record Summary := {
  total_files : Z;
  processed : Z;
  skipped_binary : Z;
  skipped_large : Z;
  errors : Z;
  encoding_examples : gmap string string;
}.

(** The output handle: what has been written, and how many more calls
    of [write] succeed before one raises ([None]: all of them do). *)
Record Sink := {
  written : list byte;
  writes_left : option nat;
}.

(** What the pipeline can observe of one input file.  The file is
    opened twice; each [open] sees the contents there are at that time,
    or raises. *)
Record File := {
  path_str : list byte;                 (* str(path).encode("utf-8", errors="replace") *)
  path_posix : string;                  (* path.as_posix() *)
  stat_size : option Z;                 (* path.stat().st_size *)
  sample_open : option (list byte);     (* contents at the first open *)
  stream_open : option (list byte);     (* contents at the second open *)
  read_fault : option nat;              (* which r.read(65536) raises, counting from 0 *)
}.

(** The part of [args] the loop reads; [max_size_bytes] is
    [int(args.max_size * 1024 * 1024)], or [None]. *)
Record Args := {
  max_size_bytes : option Z;
  encoding_report : bool;
}.

Record State := { sink : Sink; summary : Summary }.

(** Code that may raise, over the state: an exception ([None]) keeps
    the state it was raised in. *)
Definition M (A : Type) : Type := State -> option A * State.

Definition ret {A} (a : A) : M A := fun s => (Some a, s).

Definition raise {A} : M A := fun s => (None, s).

Definition bind {A B} (m : M A) (k : A -> M B) : M B :=
  fun s => match m s with
           | (Some a, s') => k a s'
           | (None, s') => (None, s')
           end.

Notation "'let*' x ':=' m 'in' k" := (bind m (fun x => k))
  (at level 10, x name, m at level 100, k at level 200).
Notation "'run' m 'in' k" := (bind m (fun _ => k))
  (at level 10, m at level 100, k at level 200).

Definition of_option {A} (o : option A) : M A :=
  match o with Some a => ret a | None => raise end.

Definition update_summary (f : Summary -> Summary) : M unit :=
  fun s => (Some tt, {| sink := sink s; summary := f (summary s) |}).

(** [out_fh.write(bs)] *)
Definition write (bs : list byte) : M unit :=
  fun s =>
    match writes_left (sink s) with
    | Some O => (None, s)
    | remaining =>
      (Some tt,
       {| sink := {| written := written (sink s) ++ bs;
                     writes_left := Nat.pred <$> remaining |};
          summary := summary s |})
    end.

Definition incr_total (s : Summary) : Summary :=
  {| total_files := total_files s + 1; processed := processed s;
     skipped_binary := skipped_binary s; skipped_large := skipped_large s;
     errors := errors s; encoding_examples := encoding_examples s |}.

Definition incr_processed (s : Summary) : Summary :=
  {| total_files := total_files s; processed := processed s + 1;
     skipped_binary := skipped_binary s; skipped_large := skipped_large s;
     errors := errors s; encoding_examples := encoding_examples s |}.

Definition incr_skipped_binary (s : Summary) : Summary :=
  {| total_files := total_files s; processed := processed s;
     skipped_binary := skipped_binary s + 1; skipped_large := skipped_large s;
     errors := errors s; encoding_examples := encoding_examples s |}.

Definition incr_skipped_large (s : Summary) : Summary :=
  {| total_files := total_files s; processed := processed s;
     skipped_binary := skipped_binary s; skipped_large := skipped_large s + 1;
     errors := errors s; encoding_examples := encoding_examples s |}.

Definition incr_errors (s : Summary) : Summary :=
  {| total_files := total_files s; processed := processed s;
     skipped_binary := skipped_binary s; skipped_large := skipped_large s;
     errors := errors s + 1; encoding_examples := encoding_examples s |}.

Definition record_encoding (p enc : string) (s : Summary) : Summary :=
  {| total_files := total_files s; processed := processed s;
     skipped_binary := skipped_binary s; skipped_large := skipped_large s;
     errors := errors s;
     encoding_examples := <[p := enc]> (encoding_examples s) |}.

(** The sizes of the two kinds of read: [r.read(8192)] and
    [r.read(65536)]. *)
Definition SAMPLE_SIZE : nat := Z.to_nat 8192.
Definition CHUNK_SIZE : nat := Z.to_nat 65536.

(** [b"\n\n----\n" + str(path).encode("utf-8", errors="replace") + b"\n"] *)
Definition header (f : File) : list byte :=
  [x0a; x0a; x2d; x2d; x2d; x2d; x0a] ++ path_str f ++ [x0a].

(** [txt, enc = try_decode(data); encoding_used = enc;
    out_fh.write(txt.encode("utf-8"))] *)
Definition decode_and_write (data : list byte) : M string :=
  let '(txt, enc) := try_decode data in
  let* bs := of_option (utf8_encode txt) in
  run write bs in
  ret enc.

(** [r.read(65536)] on the second handle, [handle] being what is left to
    read and [idx] the number of reads made before. *)
Definition read_chunk (f : File) (idx : nat) (handle : list byte)
  : M (list byte) :=
  if decide (read_fault f = Some idx) then raise
  else ret (take CHUNK_SIZE handle).

(** The [while True] loop.  Every pass but the last takes at least one
    byte from the handle, so [S (length handle)] passes are enough. *)
Fixpoint stream_loop (fuel : nat) (f : File) (idx : nat)
    (handle : list byte) (encoding_used : string) : M string :=
  match fuel with
  | O => raise
  | S fuel =>
    let* chunk := read_chunk f idx handle in
    match chunk with
    | [] => ret encoding_used
    | _ =>
      let* enc := decode_and_write chunk in
      stream_loop fuel f (S idx) (drop CHUNK_SIZE handle) enc
    end
  end.

(** Lines 344-363: the header, the second [open], the sample, the
    chunks, the report and the count.  The second handle starts at the
    first byte of the file. *)
Definition write_frame (a : Args) (f : File) (sample : list byte) : M unit :=
  run write (header f) in
  let* handle := of_option (stream_open f) in
  let* encoding_used :=
    match sample with
    | [] => ret "unknown"
    | _ => decode_and_write sample
    end in
  let* encoding_used :=
    stream_loop (S (length handle)) f 0 handle encoding_used in
  run (if encoding_report a
       then update_summary (record_encoding (path_posix f) encoding_used)
       else ret tt) in
  update_summary incr_processed.

(** [fsize > max_size_bytes], with [fsize = -1] when [stat] raised. *)
Definition too_large (a : Args) (f : File) : bool :=
  let fsize := default (-1) (stat_size f) in
  match max_size_bytes a with
  | Some m => (0 <=? fsize) && (m <? fsize)
  | None => false
  end.

(** The body of the outer [try] for one file. *)
Definition file_body (a : Args) (f : File) : M unit :=
  if too_large a f then update_summary incr_skipped_large
  else
    match sample_open f with
    | None => update_summary incr_errors
    | Some contents =>
      let sample := take SAMPLE_SIZE contents in
      if looks_binary_bytes sample then update_summary incr_skipped_binary
      else write_frame a f sample
    end.

(** One pass of [for path in file_list]: [except Exception] counts an
    error and the loop goes on. *)
Definition process_file (a : Args) (f : File) (s : State) : State :=
  match file_body a f s with
  | (Some _, s') => s'
  | (None, s') => {| sink := sink s'; summary := incr_errors (summary s') |}
  end.

Definition process_files_sequential (a : Args) (file_list : list File)
    (s : State) : State :=
  let s := foldl (fun s _ => {| sink := sink s;
                                summary := incr_total (summary s) |})
                 s file_list in
  foldl (fun s f => process_file a f s) s file_list.

Definition Summary_init : Summary :=
  {| total_files := 0; processed := 0; skipped_binary := 0;
     skipped_large := 0; errors := 0; encoding_examples := ∅ |}.

End Ingestion.

(** ** What a traversal adds

    The relations between the state before and after a scan of one
    directory, a run of the [while] loop, and a run over the roots, on
    which the properties of the discovery engine rest. *)

Module Invariants.

Section Run.
Context (fs : FS) (o : Options).

Definition key_of (p : path) : key := entry_key fs (follow_symlinks o) p.

(** [p] is not held back by the hidden filter. *)
Definition visible (p : path) : Prop :=
  include_hidden o = false -> is_hidden fs p = false.

(** A directory at depth [k] may be pushed. *)
Definition within_depth (k : Z) : Prop :=
  forall m, max_depth o = Some m -> k <= m.

Definition child_of (d : path) (names : list string) (p : path) : Prop :=
  exists n, n ∈ names /\ p = d ++ [n].

(** The scan of directory [d], popped at depth [k], over entries among
    [names], took the state [st] to [st']: it yielded [ys] and pushed
    the directories [fr], each a visible child of [d] whose key was not
    seen before and is seen now, no two with the same key. *)
Definition scan_adds (d : path) (k : Z) (names : list string)
    (st st' : scan_state) : Prop :=
  exists ys fr : list path,
    st'.1.1 = st.1.1 ++ ys
    /\ st'.2 = ((fun p => (p, k + 1)) <$> fr) ++ st.2
    /\ st.1.2 ⊆ st'.1.2
    /\ NoDup (key_of <$> (ys ++ fr))
    /\ (forall p, p ∈ ys ++ fr ->
          child_of d names p /\ visible p
          /\ (key_of p ∉ st.1.2) /\ key_of p ∈ st'.1.2)
    /\ (fr <> [] -> within_depth (k + 1))
    /\ (forall x, x ∈ st'.1.2 ->
          x ∈ st.1.2 \/ exists n, n ∈ names /\ x = key_of (d ++ [n])).

(** [p] was reached from the frame [f]: it lies [length ns] names below
    the frame's directory, none of them hidden when hidden entries are
    filtered, and its directory is no deeper than [max_depth] when the
    frame is not. *)
Definition from_frame (f : frame) (p : path) : Prop :=
  exists ns : list string,
    ns <> [] /\ p = f.1 ++ ns
    /\ (include_hidden o = false ->
        is_hidden fs f.1 = false
        /\ Forall (fun n => starts_with_dot n = false) ns)
    /\ (forall m, max_depth o = Some m -> f.2 <= m ->
        f.2 + Z.of_nat (length ns) - 1 <= m).

(** A run of the [while] loop from [st] gave [r]: it yielded [new], each
    path reached from a frame of the stack, with a key not seen before,
    no two with the same key. *)
Definition walk_adds (st : scan_state) (r : list path * gset key) : Prop :=
  exists new : list path,
    r.1 = st.1.1 ++ new
    /\ st.1.2 ⊆ r.2
    /\ NoDup (key_of <$> new)
    /\ (forall p, p ∈ new ->
          (key_of p ∉ st.1.2) /\ key_of p ∈ r.2
          /\ exists f, f ∈ st.2 /\ from_frame f p).

(** A run over the roots gave [r]: besides the roots that are regular
    files, it yielded the paths [tr] found by traversal. *)
Definition discover_adds (roots : list path) (yielded : list path)
    (seen : gset key) (r : list path * gset key) : Prop :=
  exists tr : list path,
    r.1 ≡ₚ yielded ++ List.filter (path_is_file fs) roots ++ tr
    /\ seen ⊆ r.2
    /\ NoDup (key_of <$> tr)
    /\ (forall p, p ∈ tr ->
          (key_of p ∉ seen) /\ key_of p ∈ r.2
          /\ exists root, root ∈ roots /\ from_frame (root, 0) p).


(** No two entries of the directories that can be listed have the same
    key: the file system has neither links nor aliases. *)
Definition no_alias : Prop :=
  forall (d : path) (names : list string) (n : string)
         (d' : path) (names' : list string) (n' : string),
    scandir fs d = Some names -> n ∈ names ->
    scandir fs d' = Some names' -> n' ∈ names' ->
    key_of (d ++ [n]) = key_of (d' ++ [n']) -> d ++ [n] = d' ++ [n'].




(** [p] is a file the traversal gets to from the directory [d] popped at
    depth [k]: through directories that pass the hidden filter, can be
    listed and are no deeper than [max_depth]. *)
Inductive reaches : path -> Z -> path -> Prop :=
| reaches_file (d : path) (k : Z) (names : list string) (n : string) :
    negb (include_hidden o) && is_hidden fs d = false ->
    scandir fs d = Some names -> n ∈ names ->
    negb (include_hidden o) && is_hidden fs (d ++ [n]) = false ->
    (entry_kind fs (follow_symlinks o) (d ++ [n])).1 = true ->
    reaches d k (d ++ [n])
| reaches_dir (d : path) (k : Z) (names : list string) (n : string)
    (p : path) :
    negb (include_hidden o) && is_hidden fs d = false ->
    scandir fs d = Some names -> n ∈ names ->
    negb (include_hidden o) && is_hidden fs (d ++ [n]) = false ->
    entry_kind fs (follow_symlinks o) (d ++ [n]) = (false, true) ->
    within_depth (k + 1) ->
    reaches (d ++ [n]) (k + 1) p ->
    reaches d k p.


End Run.

End Invariants.

(** ** What a step of the pipeline may do to the state *)

Module Effects.
Import Ingestion.

(** The sink of [s'] holds what the sink of [s] held, and then more. *)
Definition extends (s s' : State) : Prop :=
  exists suffix, written (sink s') = written (sink s) ++ suffix.

(** A step that only appends to the sink and leaves the summary alone. *)
Definition appends {A} (m : M A) : Prop :=
  forall s, extends s (m s).2 /\ summary (m s).2 = summary s.

(** The four outcome counters of a summary, added up. *)
Definition outcomes (s : Summary) : Z :=
  processed s + skipped_binary s + skipped_large s + errors s.



End Effects.

(** ** The specification's wording

    Definitions that follow the words of the specification where they
    differ from the code, for comparison with the definitions above. *)

Module Stated.
Import Classifier.

(** The classifier over a given allowed set, decided exactly: no sample,
    not binary; a null byte, binary; otherwise binary when more than
    3 in 10 of the first 1024 bytes are outside the set. *)
Definition classify (allowed : byte -> bool) (data : list byte) : bool :=
  match take 1024 data with
  | [] => false
  | sample =>
    if has_null sample then true
    else
      let outside := length (List.filter (fun b => negb (allowed b)) sample) in
      3 * Z.of_nat (length sample) <? 10 * Z.of_nat outside
  end.

(** The allowed set as C7 words it: the printable ASCII range plus tab,
    newline, carriage return, form feed, backspace and escape. *)
Definition printable_plus_six (b : byte) : bool :=
  let c := byte_val b in
  orb ((0x20 <=? c) && (c <=? 0x7E))
      (bool_decide (c ∈ [9; 10; 13; 12; 8; 27])).

(** The allowed set of the code: 0x20 to 0xFF, and 7, 8, 9, 10, 12, 13
    and 27. *)
Definition text_chars_set (b : byte) : bool :=
  let c := byte_val b in
  orb ((0x20 <=? c) && (c <=? 0xFF))
      (bool_decide (c ∈ [7; 8; 9; 10; 12; 13; 27])).

(** A check of [cell n k] for all [1 <= n <= 1024] and [0 <= k <= 1024]. *)
Definition table_check (cell : Z -> Z -> bool) : bool :=
  let ks := seqZ 0 1025 in
  forallb (fun n => forallb (cell n) ks) (seqZ 1 1024).

(** For [k] bytes out of [n]: the binary64 comparison of the code and
    the exact comparison of [k / n] with [3 / 10] agree. *)
Definition threshold_cell (n k : Z) : bool :=
  Bool.eqb
    (exceeds_threshold
       (PrimFloat.div (PrimFloat.of_uint63 (Uint63.of_Z k))
                      (PrimFloat.of_uint63 (Uint63.of_Z n))))
    (3 * n <? 10 * k).

(** C3 as it is worded: after the scan of a directory, the key of every
    child is in the seen-set, hidden or not. *)
Definition records_every_child (fs : FS) (o : Options) (d : path) (k : Z)
    (names : list string) (st : scan_state) : Prop :=
  forall n, n ∈ names ->
    Invariants.key_of fs o (d ++ [n]) ∈ (scan_entries fs o d k names st).1.2.

(** C5 as it is worded: a yielded path is a root that is a regular file,
    or none of its components starts with the hidden marker. *)
Definition no_hidden_component (fs : FS) (roots ys : list path) : Prop :=
  forall p, p ∈ ys ->
    (p ∈ roots /\ path_is_file fs p = true)
    \/ Forall (fun c => starts_with_dot c = false) p.


End Stated.


(** ** A sample file system

    A directory [r] holding a text file, a hidden file, a directory
    [sub] two levels deep, and a symbolic link [loop] back to [r]
    itself.  Entries are told apart by their name; with symbolic links
    followed, [loop] has the identity of [r] and lists the same
    entries, so the paths below [r] never end. *)

Module Sample.

Definition is_dir_name (s : string) : bool :=
  bool_decide (s ∈ ["r"; "loop"; "sub"; "subsub"]).

Definition is_file_name (s : string) : bool :=
  bool_decide (s ∈ ["a.txt"; ".hid"; "deep.txt"; "deeper.txt"]).

Definition listing (s : string) : option (list string) :=
  if decide (s = "r") then Some ["a.txt"; ".hid"; "loop"; "sub"]
  else if decide (s = "loop") then Some ["a.txt"; ".hid"; "loop"; "sub"]
  else if decide (s = "sub") then Some ["deep.txt"; "subsub"]
  else if decide (s = "subsub") then Some ["deeper.txt"]
  else None.

Definition inode (follow : bool) (s : string) : Z :=
  if decide (s = "r") then 1
  else if decide (s = "loop") then (if follow then 1 else 3)
  else if decide (s = "a.txt") then 2
  else if decide (s = ".hid") then 4
  else if decide (s = "sub") then 6
  else if decide (s = "deep.txt") then 7
  else if decide (s = "subsub") then 8
  else if decide (s = "deeper.txt") then 9
  else 10.

Definition fs : FS := {|
  path_is_file p := is_file_name (name p);
  path_is_dir p := is_dir_name (name p);
  path_exists p := is_file_name (name p) || is_dir_name (name p);
  scandir p := listing (name p);
  entry_stat p follow :=
    Some {| st_ino := Some (inode follow (name p)); st_dev := Some 5 |};
  entry_is_file p follow := Some (is_file_name (name p));
  entry_is_dir p follow :=
    Some (is_dir_name (name p)
          && (follow || negb (bool_decide (name p = "loop"))));
  resolve p := None;
  absolute p := "";
  os_name_nt := false;
  GetFileAttributesW p := None;
|}.


Definition following (depth : option Z) : Options :=
  {| include_hidden := false; follow_symlinks := true; max_depth := depth |}.

End Sample.

(** ** A sample tree

    The same directory without the link: [r] holds [a.txt], [.hid] and
    [sub]; [sub] holds [deep.txt] and [subsub]; [subsub] holds
    [deeper.txt].  Directories are told apart by their whole path. *)

Module Tree.

Definition listing (p : path) : option (list string) :=
  if decide (p = ["r"]) then Some ["a.txt"; ".hid"; "sub"]
  else if decide (p = ["r"; "sub"]) then Some ["deep.txt"; "subsub"]
  else if decide (p = ["r"; "sub"; "subsub"]) then Some ["deeper.txt"]
  else None.

Definition fs : FS := {|
  path_is_file p := Sample.is_file_name (name p);
  path_is_dir p := Sample.is_dir_name (name p);
  path_exists p := Sample.is_file_name (name p) || Sample.is_dir_name (name p);
  scandir p := listing p;
  entry_stat p follow :=
    Some {| st_ino := Some (Sample.inode follow (name p)); st_dev := Some 5 |};
  entry_is_file p follow := Some (Sample.is_file_name (name p));
  entry_is_dir p follow := Some (Sample.is_dir_name (name p));
  resolve p := None;
  absolute p := "";
  os_name_nt := false;
  GetFileAttributesW p := None;
|}.

Definition limited (depth : Z) : Options :=
  {| include_hidden := false; follow_symlinks := false;
     max_depth := Some depth |}.

End Tree.

(** ** Sample input files *)

Module SampleFiles.
Import Ingestion.

(** [b"hello"] *)
Definition hello : list byte := [x68; x65; x6c; x6c; x6f].

(** ["hi"] in UTF-16LE: [68 00 69 00]. *)
Definition hi_utf16le : list byte := [x68; x00; x69; x00].

(** Two letters e with acute accent in Latin-1: [E9 E9]. *)
Definition ee_latin1 : list byte := [xe9; xe9].

(** A readable file named by the bytes [nm], holding [data]. *)
Definition readable (nm : list byte) (posix : string) (data : list byte)
  : File :=
  {| path_str := nm; path_posix := posix;
     stat_size := Some (Z.of_nat (length data));
     sample_open := Some data; stream_open := Some data;
     read_fault := None |}.

Definition a_txt : File := readable [x61; x2e; x74; x78; x74] "a.txt" hello.

Definition b_txt : File := readable [x62; x2e; x74; x78; x74] "b.txt" hello.

Definition hi_file : File :=
  readable [x68; x2e; x74; x78; x74] "h.txt" hi_utf16le.

Definition ee_file : File :=
  readable [x65; x2e; x74; x78; x74] "e.txt" ee_latin1.

(** [a.txt] again, on a device that fails at the second [r.read(65536)]. *)
Definition a_faulty : File :=
  {| path_str := path_str a_txt; path_posix := path_posix a_txt;
     stat_size := stat_size a_txt;
     sample_open := sample_open a_txt; stream_open := stream_open a_txt;
     read_fault := Some 1%nat |}.

(** The defaults of the command line: 200 MB, no encoding report. *)
Definition args : Args :=
  {| max_size_bytes := Some (200 * 1024 * 1024); encoding_report := false |}.

(** A fresh output file that takes every write. *)
Definition start : State :=
  {| sink := {| written := []; writes_left := None |};
     summary := Summary_init |}.

End SampleFiles.

(** ** What becomes of a file, and of the sink *)

Module Verdicts.
Import Ingestion.

(** The file is within the size limit. *)
Definition within_size (a : Args) (f : File) : bool := negb (too_large a f).

(** The file is within the size limit, its first [open] and read
    succeed, and the sample looks binary. *)
Definition binary_like (a : Args) (f : File) : bool :=
  within_size a f
  && match sample_open f with
     | Some contents =>
       Classifier.looks_binary_bytes (take SAMPLE_SIZE contents)
     | None => false
     end.

(** The file gets as far as its header: it is within the size limit,
    its first [open] and read succeed, and the sample does not look
    binary. *)
Definition accepted (a : Args) (f : File) : bool :=
  within_size a f
  && match sample_open f with
     | Some contents =>
       negb (Classifier.looks_binary_bytes (take SAMPLE_SIZE contents))
     | None => false
     end.

(** The bytes are well-formed UTF-8. *)
Definition valid_utf8 (bs : list byte) : Prop :=
  is_Some (utf8_decode strict bs).

(** A step whose result and whose effect on the sink depend on the sink
    alone, not on the summary. *)
Definition sink_only {A} (m : M A) : Prop :=
  forall s s', sink s = sink s' ->
    (m s).1 = (m s').1 /\ sink (m s).2 = sink (m s').2.

(** A step that leaves well-formed UTF-8 in a sink that held it. *)
Definition keeps_valid {A} (m : M A) : Prop :=
  forall s, valid_utf8 (written (sink s)) ->
    valid_utf8 (written (sink (m s).2)).

(** The labels [encoding_used] can have when a file has been written. *)
Definition REPORTED : list string :=
  ["unknown"; "utf-8"; "utf-16"; "utf-16-le"; "utf-16-be"; "latin-1"].

End Verdicts.

(** ** [gather_file_list] and the output file among the inputs *)

Module Driver.

(** [gather_file_list]: the paths discovery yields that exist and are
    regular files when they are looked at again. *)
Definition gather_file_list (fuel : nat) (fs : FS) (o : Options)
    (inputs : list path) : option (list path) :=
  List.filter (fun p => path_exists fs p && path_is_file fs p)
    <$> discover_files fuel fs o inputs.

Section Guard.
(** Resolved paths, compared with the [!=] of [Path]; [resolve_path p]
    is [p.resolve()], [None] when it raises. *)
Context {P : Type} `{EqDecision P} (resolve_path : path -> option P).



End Guard.

End Driver.

(** ** Directories that have been scanned *)

Module Revisit.

Section Run.
Context (fs : FS) (o : Options).

(** The hidden filter holds [p] back. *)
Definition filtered (p : path) : bool :=
  negb (include_hidden o) && is_hidden fs p.

(** A scan of [d] would change nothing: [d] is filtered or cannot be
    listed, or each of its entries is filtered or has its key seen. *)
Definition quiet (seen : gset key) (d : path) : Prop :=
  filtered d = true
  \/ scandir fs d = None
  \/ exists names,
       scandir fs d = Some names
       /\ forall n, n ∈ names ->
            filtered (d ++ [n]) = true
            \/ Invariants.key_of fs o (d ++ [n]) ∈ seen.

(** How far below [max_depth = m] a frame is. *)
Definition room (m : Z) (f : frame) : nat := Z.to_nat (m - f.2).

End Run.

End Revisit.

(** * Properties *)

Module ClassifierFacts.
Import Classifier Stated.

Lemma table_check_sound (cell : Z -> Z -> bool) :
  table_check cell = true ->
  forall n k, 1 <= n <= 1024 -> 0 <= k <= 1024 -> cell n k = true.
Proof.
  unfold table_check. cbv zeta. intros H n k Hn Hk.
  rewrite forallb_forall in H.
  assert (Hin : In n (seqZ 1 1024))
    by (apply list_elem_of_In, elem_of_seqZ; lia).
  specialize (H _ Hin).
  rewrite forallb_forall in H. apply H.
  apply list_elem_of_In, elem_of_seqZ. lia.
Qed.

Lemma threshold_table : table_check threshold_cell = true.
Proof. vm_compute. reflexivity. Qed.

Lemma threshold_exact (k n : nat) :
  (1 <= n <= 1024)%nat -> (k <= 1024)%nat ->
  exceeds_threshold (true_div k n) = (3 * Z.of_nat n <? 10 * Z.of_nat k).
Proof.
  intros Hn Hk.
  apply Bool.eqb_prop.
  apply (table_check_sound threshold_cell threshold_table (Z.of_nat n) (Z.of_nat k)); lia.
Qed.

Lemma in_text_chars_set (b : byte) : in_text_chars b = text_chars_set b.
Proof. destruct b; vm_compute; reflexivity. Qed.

Lemma nontext_filter (s : list byte) :
  nontext s = length (List.filter (fun b => negb (text_chars_set b)) s).
Proof.
  unfold nontext. f_equal. apply List.filter_ext. intros b.
  now rewrite in_text_chars_set.
Qed.

Lemma filter_length_le {A} (f : A -> bool) (l : list A) : (length (List.filter f l) <= length l)%nat.
Proof. induction l as [|x l IH]; simpl; [lia|]. destruct (f x); simpl; lia. Qed.

(** C7, as amended: [looks_binary_bytes] is a function of the first 1024
    bytes; an empty sample is not binary; a null byte among them makes
    the sample binary; otherwise the sample is binary exactly when more
    than 3 in 10 of those bytes are outside the allowed set, which is the
    bytes 0x20 to 0xFF together with 7, 8, 9, 10, 12, 13 and 27.  The
    comparison of the binary64 quotient with the literal 0.30 decides
    the same as the exact one. *)
Theorem looks_binary_bytes_characterised (data : list byte) :
  looks_binary_bytes data = classify text_chars_set data
  /\ looks_binary_bytes data = looks_binary_bytes (take 1024 data).
Proof.
  assert (H : forall d, looks_binary_bytes d = classify text_chars_set d).
  { clear data. intros data. unfold looks_binary_bytes, classify.
    destruct data as [|b data]; [reflexivity|].
    remember (take 1024 (b :: data)) as sample eqn:Hs.
    assert (Hlen : (1 <= length sample <= 1024)%nat).
    { subst sample. rewrite length_take, length_cons. lia. }
    destruct sample as [|b' sample']; [cbn [length] in Hlen; lia|].
    destruct (has_null (b' :: sample')); [reflexivity|].
    rewrite Nat.max_r by lia.
    rewrite threshold_exact.
    - now rewrite nontext_filter.
    - lia.
    - pose proof (filter_length_le (fun b => negb (in_text_chars b))
                    (b' :: sample')).
      unfold nontext. lia. }
  split; [apply H|]. rewrite !H. unfold classify.
  now rewrite take_take, Nat.min_id.
Qed.

Lemma high_byte_counterexample :
  looks_binary_bytes [xe9] = false
  /\ classify printable_plus_six [xe9] = true
  /\ looks_binary_bytes [x07; x41; x41] = false
  /\ classify printable_plus_six [x07; x41; x41] = true.
Proof. vm_compute. repeat split. Qed.
End ClassifierFacts.

Module CodecFacts.

Lemma byte_val_range (b : byte) : 0 <= byte_val b < 256.
Proof.
  unfold byte_val. pose proof (Byte.to_N_bounded b). lia.
Qed.

Lemma byte_val_of (z : Z) : 0 <= z < 256 -> byte_val (byte_of z) = z.
Proof.
  intros Hz. unfold byte_val, byte_of.
  destruct (Byte.of_N (Z.to_N z)) as [b|] eqn:E.
  - apply Byte.to_of_N in E. lia.
  - apply Byte.of_N_None_iff in E. lia.
Qed.

(** Settles every comparison of the goal that the hypotheses decide. *)
Ltac settle :=
  repeat match goal with
  | |- context [?a <? ?b] =>
    first [ replace (a <? b) with true by (symmetry; apply Z.ltb_lt; lia)
          | replace (a <? b) with false by (symmetry; apply Z.ltb_ge; lia) ]
  | |- context [?a <=? ?b] =>
    first [ replace (a <=? b) with true by (symmetry; apply Z.leb_le; lia)
          | replace (a <=? b) with false by (symmetry; apply Z.leb_gt; lia) ]
  | |- context [?a =? ?b] =>
    first [ replace (a =? b) with true by (symmetry; apply Z.eqb_eq; lia)
          | replace (a =? b) with false by (symmetry; apply Z.eqb_neq; lia) ]
  end; cbn [andb orb negb].

Ltac zlia := Z.div_mod_to_equations; lia.

Section Sequences.
Variable errors : error_mode.
Variables b0 b1 b2 b3 : byte.
Variable rest : list byte.

Lemma utf8_decode_1 :
  byte_val b0 < 0x80 ->
  utf8_decode errors (b0 :: rest)
  = cons (byte_val b0) <$> utf8_decode errors rest.
Proof.
  intros H. cbn [utf8_decode]. cbv zeta.
  generalize dependent (byte_val b0). intros v0 H. now settle.
Qed.

Lemma utf8_decode_2 :
  0xC2 <= byte_val b0 < 0xE0 -> 0x80 <= byte_val b1 < 0xC0 ->
  utf8_decode errors (b0 :: b1 :: rest)
  = cons ((byte_val b0 - 0xC0) * 64 + (byte_val b1 - 0x80))
      <$> utf8_decode errors rest.
Proof.
  intros H0 H1. cbn [utf8_decode]. cbv zeta. unfold is_continuation.
  generalize dependent (byte_val b1). generalize dependent (byte_val b0).
  intros v0 H0 v1 H1. now settle.
Qed.

Lemma utf8_decode_3 :
  0xE0 <= byte_val b0 < 0xF0 -> 0x80 <= byte_val b1 < 0xC0 ->
  0x80 <= byte_val b2 < 0xC0 ->
  (byte_val b0 = 0xE0 -> 0xA0 <= byte_val b1) ->
  (byte_val b0 = 0xED -> byte_val b1 < 0xA0) ->
  utf8_decode errors (b0 :: b1 :: b2 :: rest)
  = cons ((byte_val b0 - 0xE0) * 4096 + (byte_val b1 - 0x80) * 64
          + (byte_val b2 - 0x80))
      <$> utf8_decode errors rest.
Proof.
  intros H0 H1 H2 Hlow Hsur. cbn [utf8_decode]. cbv zeta.
  unfold is_continuation.
  generalize dependent (byte_val b2). generalize dependent (byte_val b1).
  generalize dependent (byte_val b0).
  intros v0 H0 v1 H1 Hlow Hsur v2 H2.
  destruct (Z.ltb_spec v1 0xA0); now settle.
Qed.

Lemma utf8_decode_4 :
  0xF0 <= byte_val b0 < 0xF5 -> 0x80 <= byte_val b1 < 0xC0 ->
  0x80 <= byte_val b2 < 0xC0 -> 0x80 <= byte_val b3 < 0xC0 ->
  (byte_val b0 = 0xF0 -> 0x90 <= byte_val b1) ->
  (byte_val b0 = 0xF4 -> byte_val b1 < 0x90) ->
  utf8_decode errors (b0 :: b1 :: b2 :: b3 :: rest)
  = cons ((byte_val b0 - 0xF0) * 262144 + (byte_val b1 - 0x80) * 4096
          + (byte_val b2 - 0x80) * 64 + (byte_val b3 - 0x80))
      <$> utf8_decode errors rest.
Proof.
  intros H0 H1 H2 H3 Hlow Hhigh. cbn [utf8_decode]. cbv zeta.
  unfold is_continuation.
  generalize dependent (byte_val b3). generalize dependent (byte_val b2).
  generalize dependent (byte_val b1). generalize dependent (byte_val b0).
  intros v0 H0 v1 H1 Hlow Hhigh v2 H2 v3 H3.
  destruct (Z.ltb_spec v1 0x90); now settle.
Qed.
End Sequences.

Lemma utf8_decode_encode_char (errors : error_mode) (c : Z)
    (bs rest : list byte) :
  utf8_encode_char c = Some bs ->
  utf8_decode errors (bs ++ rest) = cons c <$> utf8_decode errors rest.
Proof.
  unfold utf8_encode_char, is_scalar, is_surrogate. intros H.
  destruct (Z.leb_spec 0 c); [|discriminate].
  destruct (Z.leb_spec c 0x10FFFF); [|discriminate].
  assert (Hsur : c < 0xD800 \/ 0xDFFF < c).
  { destruct (Z.leb_spec 0xD800 c); destruct (Z.leb_spec c 0xDFFF);
      try discriminate; lia. }
  replace (negb (true && true && negb ((0xD800 <=? c) && (c <=? 0xDFFF))))
    with false in H
    by (destruct (Z.leb_spec 0xD800 c); destruct (Z.leb_spec c 0xDFFF);
        try reflexivity; lia).
  destruct (Z.ltb_spec c 0x80);
    [|destruct (Z.ltb_spec c 0x800); [|destruct (Z.ltb_spec c 0x10000)]];
    inversion H; subst bs; clear H; cbn [app].
  - rewrite utf8_decode_1; rewrite ?byte_val_of by lia; [reflexivity|lia].
  - rewrite utf8_decode_2; rewrite ?byte_val_of by zlia;
      [do 2 f_equal; zlia|zlia..].
  - rewrite utf8_decode_3; rewrite ?byte_val_of by zlia;
      [do 2 f_equal; zlia|zlia..].
  - rewrite utf8_decode_4; rewrite ?byte_val_of by zlia;
      [do 2 f_equal; zlia|zlia..].
Qed.

Lemma utf8_round_trip (t : text) (bs : list byte) :
  utf8_encode t = Some bs -> utf8_decode strict bs = Some t.
Proof.
  revert bs. induction t as [|c t IH]; intros bs H; cbn [utf8_encode] in H.
  - now inversion H.
  - destruct (utf8_encode_char c) as [bc|] eqn:Ec; [|discriminate].
    destruct (utf8_encode t) as [bt|] eqn:Et; [|discriminate].
    inversion H; subst bs; clear H.
    rewrite (utf8_decode_encode_char _ _ _ _ Ec), (IH bt eq_refl).
    reflexivity.
Qed.

End CodecFacts.

Module ResolverFacts.

Lemma bytes_decode_latin1 (data : list byte) :
  bytes_decode "latin-1" data = Some (latin1_text data).
Proof. reflexivity. Qed.

Lemma try_decode_utf8 (data : list byte) (t : text) :
  utf8_decode strict data = Some t -> try_decode data = (t, "utf-8").
Proof.
  intros H. unfold try_decode, COMMON_ENCODINGS. cbn [first_decoding].
  change (bytes_decode "utf-8" data) with (utf8_decode strict data).
  now rewrite H.
Qed.

(** C9: [try_decode] returns a pair for every byte string; the loop
    over [COMMON_ENCODINGS] always returns, at ["latin-1"] at the
    latest, so neither fallback after the loop is reached and the
    label is one of the entries of the list. *)
Theorem try_decode_label_in_common_encodings (data : list byte) :
  exists (txt : text) (enc : string),
    try_decode data = (txt, enc)
    /\ first_decoding COMMON_ENCODINGS data = Some (txt, enc)
    /\ enc ∈ take 6 COMMON_ENCODINGS
    /\ enc ∈ COMMON_ENCODINGS
    /\ length COMMON_ENCODINGS = 7%nat
    /\ enc <> "utf-8-replace" /\ enc <> "latin1-replace"
    /\ bytes_decode "latin-1" data = Some (latin1_text data).
Proof.
  unfold try_decode, COMMON_ENCODINGS. cbn [first_decoding].
  destruct (bytes_decode "utf-8" data) as [t|];
    [|destruct (bytes_decode "utf-8-sig" data) as [t|];
      [|destruct (bytes_decode "utf-16" data) as [t|];
        [|destruct (bytes_decode "utf-16-le" data) as [t|];
          [|destruct (bytes_decode "utf-16-be" data) as [t|];
            [|rewrite bytes_decode_latin1]]]]].
  all: eexists _, _; split; [reflexivity|]; split; [reflexivity|].
  all: repeat split; try discriminate; cbn [take]; set_solver.
Qed.

End ResolverFacts.

Module DiscoveryFacts.
Import Invariants.

Section Run.
Context (fs : FS) (o : Options).

#[local] Abbreviation key_of := (key_of fs o).
#[local] Abbreviation visible := (visible fs o).
#[local] Abbreviation scan_adds := (scan_adds fs o).
#[local] Abbreviation from_frame := (from_frame fs o).
#[local] Abbreviation walk_adds := (walk_adds fs o).

Lemma name_snoc (d : path) (n : string) : name (d ++ [n]) = n.
Proof. unfold name. apply last_last. Qed.

Lemma is_hidden_dot (p : path) :
  is_hidden fs p = false -> starts_with_dot (name p) = false.
Proof. unfold is_hidden. now destruct (starts_with_dot (name p)). Qed.

Lemma filter_visible (p : path) :
  negb (include_hidden o) && is_hidden fs p = false -> visible p.
Proof.
  unfold visible. intros H Hh. rewrite Hh in H. exact H.
Qed.

Lemma scan_adds_refl d k names st : scan_adds d k names st st.
Proof.
  exists [], []. rewrite !app_nil_r. cbn.
  split; [done|]. split; [done|]. split; [done|].
  split; [constructor|]. split; [|split; [done|]].
  - intros p Hp. inversion Hp.
  - intros x Hx. now left.
Qed.

Lemma scan_adds_trans d k names st1 st2 st3 :
  scan_adds d k names st1 st2 -> scan_adds d k names st2 st3 ->
  scan_adds d k names st1 st3.
Proof.
  intros (ys1 & fr1 & Hy1 & Hs1 & Hsub1 & Hnd1 & Hp1 & Hd1 & Hb1)
         (ys2 & fr2 & Hy2 & Hs2 & Hsub2 & Hnd2 & Hp2 & Hd2 & Hb2).
  exists (ys1 ++ ys2), (fr2 ++ fr1).
  split; [|split; [|split; [|split; [|split; [|split]]]]].
  - rewrite Hy2, Hy1. now rewrite app_assoc.
  - rewrite Hs2, Hs1, fmap_app. now rewrite app_assoc.
  - set_solver.
  - assert (Hperm : (ys1 ++ ys2) ++ fr2 ++ fr1 ≡ₚ (ys1 ++ fr1) ++ (ys2 ++ fr2))
      by solve_Permutation.
    rewrite Hperm, fmap_app. apply NoDup_app. repeat split; try assumption.
    intros x Hx1 Hx2.
    apply list_elem_of_fmap in Hx1 as (p1 & -> & Hin1).
    apply list_elem_of_fmap in Hx2 as (p2 & Heq & Hin2).
    destruct (Hp1 _ Hin1) as (_ & _ & _ & Hseen).
    destruct (Hp2 _ Hin2) as (_ & _ & Hnew & _).
    rewrite Heq in Hseen. contradiction.
  - intros p Hp.
    assert (p ∈ ys1 ++ fr1 \/ p ∈ ys2 ++ fr2) as [Hin|Hin]
      by set_solver.
    + destruct (Hp1 _ Hin) as (Hc & Hv & Hnew & Hseen).
      repeat split; try assumption. set_solver.
    + destruct (Hp2 _ Hin) as (Hc & Hv & Hnew & Hseen).
      repeat split; try assumption. set_solver.
  - intros Hne. destruct fr2 as [|q fr2].
    + apply Hd1. now destruct fr1.
    + now apply Hd2.
  - intros x Hx. destruct (Hb2 x Hx) as [Hx2|Hx2]; [|now right].
    now apply Hb1.
Qed.

Lemma scan_adds_one d k names st p ys' fr' st' :
  child_of d names p -> visible p -> key_of p ∉ st.1.2 ->
  (ys' = [p] /\ fr' = [] \/ ys' = [] /\ fr' = [p] /\ within_depth o (k + 1)
   \/ ys' = [] /\ fr' = []) ->
  st' = (st.1.1 ++ ys', {[key_of p]} ∪ st.1.2,
         ((fun q => (q, k + 1)) <$> fr') ++ st.2) ->
  scan_adds d k names st st'.
Proof.
  intros Hc Hv Hnew Hcase ->. exists ys', fr'. cbn.
  split; [done|]. split; [done|]. split; [apply union_subseteq_r|].
  assert (Hbound : forall x, x ∈ {[key_of p]} ∪ st.1.2 ->
            x ∈ st.1.2 \/ exists n, n ∈ names /\ x = key_of (d ++ [n])).
  { intros x Hx. apply elem_of_union in Hx as [Hx|Hx]; [|now left].
    apply elem_of_singleton in Hx as ->. right.
    destruct Hc as (n & Hn & ->). now exists n. }
  destruct Hcase as [[-> ->]|[(-> & -> & Hd)|[-> ->]]]; cbn.
  - split; [apply NoDup_singleton|]. split; [|split; [done|assumption]].
    intros q Hq. apply list_elem_of_singleton in Hq as ->.
    repeat split; try assumption. apply elem_of_union_l, elem_of_singleton. done.
  - split; [apply NoDup_singleton|]. split; [|split; [done|assumption]].
    intros q Hq. apply list_elem_of_singleton in Hq as ->.
    repeat split; try assumption. apply elem_of_union_l, elem_of_singleton. done.
  - split; [constructor|]. split; [|split; [done|assumption]].
    intros q Hq. inversion Hq.
Qed.

Lemma scan_entry_adds d k names n st :
  n ∈ names -> scan_adds d k names st (scan_entry fs o d k n st).
Proof.
  intros Hn. destruct st as [[ys seen] stack]. unfold scan_entry.
  destruct (negb (include_hidden o) && is_hidden fs (d ++ [n])) eqn:Hh;
    [apply scan_adds_refl|].
  destruct (decide (entry_key fs (follow_symlinks o) (d ++ [n]) ∈ seen))
    as [Hseen|Hseen]; [apply scan_adds_refl|].
  assert (Hc : child_of d names (d ++ [n])) by (exists n; done).
  pose proof (filter_visible _ Hh) as Hv.
  assert (Hnone : scan_adds d k names (ys, seen, stack)
            (ys, {[key_of (d ++ [n])]} ∪ seen, stack)).
  { apply (scan_adds_one d k names (ys, seen, stack) (d ++ [n]) [] []);
      auto. cbn. now rewrite app_nil_r. }
  assert (Hpush : within_depth o (k + 1) ->
            scan_adds d k names (ys, seen, stack)
              (ys, {[key_of (d ++ [n])]} ∪ seen,
               (d ++ [n], k + 1) :: stack)).
  { intros Hd.
    apply (scan_adds_one d k names (ys, seen, stack) (d ++ [n]) []
             [d ++ [n]]); auto. cbn. now rewrite app_nil_r. }
  destruct (entry_kind fs (follow_symlinks o) (d ++ [n])) as [is_f is_d].
  destruct is_f.
  { apply (scan_adds_one d k names (ys, seen, stack) (d ++ [n])
             [d ++ [n]] []); auto. }
  destruct is_d; [|exact Hnone].
  destruct (max_depth o) as [m|] eqn:Hm.
  - destruct (Z.leb_spec (k + 1) m); [|exact Hnone].
    apply Hpush. intros m' Hm'. congruence.
  - apply Hpush. intros m' Hm'. congruence.
Qed.

Lemma scan_entries_adds d k names st :
  scan_adds d k names st (scan_entries fs o d k names st).
Proof.
  unfold scan_entries.
  assert (Hgen : forall es, es ⊆ names -> forall st0,
            scan_adds d k names st0
              (foldl (fun st e => scan_entry fs o d k e st) st0 es)).
  { induction es as [|e es IH]; intros Hsub st0; cbn.
    - apply scan_adds_refl.
    - eapply scan_adds_trans.
      + apply scan_entry_adds. apply Hsub. left.
      + apply IH. intros x Hx. apply Hsub. now right. }
  now apply Hgen.
Qed.

Lemma from_frame_child d k names p :
  visible d -> child_of d names p -> visible p -> from_frame (d, k) p.
Proof.
  intros Hd (n & _ & ->) Hp. exists [n]. cbn.
  split; [done|]. split; [done|]. split.
  - intros Hh. split; [auto|]. constructor; [|constructor].
    rewrite <- (name_snoc d n). apply is_hidden_dot; auto.
  - intros m _ Hk. cbn in *. lia.
Qed.

Lemma from_frame_descend d k names q p :
  visible d -> child_of d names q -> visible q -> within_depth o (k + 1) ->
  from_frame (q, k + 1) p -> from_frame (d, k) p.
Proof.
  intros Hd (n & _ & ->) Hq Hdepth (ns & Hne & -> & Hhid & Hbound).
  cbn in *. exists (n :: ns).
  split; [done|]. split; [now rewrite <- app_assoc|]. split.
  - intros Hh. split; [auto|]. constructor; [|apply Hhid; auto].
    rewrite <- (name_snoc d n). apply is_hidden_dot; auto.
  - intros m Hm Hk. specialize (Hbound m Hm (Hdepth m Hm)).
    cbn in *. lia.
Qed.

Lemma walk_adds_skip f st r :
  walk_adds (st.1, tail (f :: st.2)) r -> walk_adds (st.1, f :: st.2) r.
Proof.
  intros (new & Hy & Hsub & Hnd & Hp). exists new. cbn in *.
  repeat split; try assumption; try (apply Hp; assumption).
  destruct (Hp _ H) as (_ & _ & g & Hg & Hfrom).
  exists g. split; [now right|assumption].
Qed.

Lemma walk_spec fuel st r :
  walk fuel fs o st = Some r -> walk_adds st r.
Proof.
  revert st. induction fuel as [|fuel IH]; intros [[ys seen] stack];
    destruct stack as [|[d k] stack]; cbn [walk]; intros H;
    try discriminate.
  1,2: inversion H; subst r; exists []; cbn; rewrite app_nil_r;
       split; [done|]; split; [done|]; split; [apply NoDup_nil_2|];
       intros p Hp; inversion Hp.
  destruct (negb (include_hidden o) && is_hidden fs d) eqn:Hh.
  { apply IH in H. now apply (walk_adds_skip (d, k) (ys, seen, stack)). }
  destruct (scandir fs d) as [entries|] eqn:Hscan.
  2: { apply IH in H. now apply (walk_adds_skip (d, k) (ys, seen, stack)). }
  pose proof (filter_visible _ Hh) as Hd.
  pose proof (scan_entries_adds d k entries (ys, seen, stack)) as Hscanned.
  destruct (scan_entries fs o d k entries (ys, seen, stack))
    as [[ys1 seen1] stack1].
  destruct Hscanned as (y1 & fr & Hy1 & Hs1 & Hsub1 & Hnd1 & Hp1 & Hdepth & _).
  apply IH in H. destruct H as (new & Hy & Hsub & Hnd & Hp).
  cbn in *. subst ys1 stack1.
  rewrite fmap_app in Hnd1. apply NoDup_app in Hnd1 as (Hnd1 & _ & _).
  exists (y1 ++ new). split; [now rewrite app_assoc|].
  split; [set_solver|]. split.
  - rewrite fmap_app. apply NoDup_app. repeat split; try assumption.
    intros x Hx1 Hx2.
    apply list_elem_of_fmap in Hx1 as (p1 & -> & Hin1).
    apply list_elem_of_fmap in Hx2 as (p2 & Heq & Hin2).
    destruct (Hp1 p1) as (_ & _ & _ & Hseen);
      [apply elem_of_app; now left|].
    destruct (Hp _ Hin2) as (Hnew & _). rewrite Heq in Hseen. contradiction.
  - intros p Hin. apply elem_of_app in Hin as [Hin|Hin].
    + destruct (Hp1 p) as (Hc & Hv & Hnew & Hseen);
        [apply elem_of_app; now left|].
      split; [assumption|]. split; [set_solver|].
      exists (d, k). split; [now left|].
      now apply (from_frame_child d k entries).
    + destruct (Hp _ Hin) as (Hnew & Hseen & f & Hf & Hfrom).
      split; [set_solver|]. split; [assumption|].
      apply elem_of_app in Hf as [Hf|Hf].
      * apply list_elem_of_fmap in Hf as (q & -> & Hq).
        destruct (Hp1 q) as (Hc & Hv & _);
          [apply elem_of_app; now right|].
        exists (d, k). split; [now left|].
        apply (from_frame_descend d k entries q); try assumption.
        apply Hdepth. intros ->. inversion Hq.
      * exists f. split; [now right|assumption].
Qed.

Lemma filter_files_cons (root : path) (roots : list path) :
  List.filter (path_is_file fs) (root :: roots)
  = if path_is_file fs root
    then root :: List.filter (path_is_file fs) roots
    else List.filter (path_is_file fs) roots.
Proof. reflexivity. Qed.

Lemma discover_from_spec fuel roots yielded seen r :
  discover_from fuel fs o roots yielded seen = Some r ->
  discover_adds fs o roots yielded seen r.
Proof.
  revert yielded seen.
  induction roots as [|root roots IH]; intros ys seen H; cbn in H.
  { inversion H; subst r. exists []. cbn. rewrite app_nil_r.
    split; [done|]. split; [done|]. split; [apply NoDup_nil_2|].
    intros p Hp. inversion Hp. }
  destruct (path_is_file fs root) eqn:Hfile.
  { apply IH in H as (tr & Hperm & Hsub & Hnd & Hp).
    exists tr. rewrite filter_files_cons, Hfile.
    split; [rewrite Hperm; solve_Permutation|].
    split; [done|]. split; [done|].
    intros p Hin. destruct (Hp _ Hin) as (Hnew & Hseen & r0 & Hr0 & Hfrom).
    repeat split; try assumption. exists r0. split; [now right|assumption]. }
  destruct (negb (path_exists fs root)).
  { apply IH in H as (tr & Hperm & Hsub & Hnd & Hp).
    exists tr. rewrite filter_files_cons, Hfile.
    split; [done|]. split; [done|]. split; [done|].
    intros p Hin. destruct (Hp _ Hin) as (Hnew & Hseen & r0 & Hr0 & Hfrom).
    repeat split; try assumption. exists r0. split; [now right|assumption]. }
  destruct (walk fuel fs o (ys, seen, [(root, 0)])) as [[ys1 seen1]|] eqn:Hw;
    [|discriminate].
  apply walk_spec in Hw as (new & Hy & Hsub1 & Hnd1 & Hp1).
  apply IH in H as (tr & Hperm & Hsub & Hnd & Hp). cbn in *. subst ys1.
  exists (new ++ tr). rewrite filter_files_cons, Hfile.
  split; [rewrite Hperm; solve_Permutation|].
  split; [set_solver|]. split.
  - rewrite fmap_app. apply NoDup_app. repeat split; try assumption.
    intros x Hx1 Hx2.
    apply list_elem_of_fmap in Hx1 as (p1 & -> & Hin1).
    apply list_elem_of_fmap in Hx2 as (p2 & Heq & Hin2).
    destruct (Hp1 _ Hin1) as (_ & Hseen & _).
    destruct (Hp _ Hin2) as (Hnew & _). rewrite Heq in Hseen. contradiction.
  - intros p Hin. apply elem_of_app in Hin as [Hin|Hin].
    + destruct (Hp1 _ Hin) as (Hnew & Hseen & f & Hf & Hfrom).
      split; [assumption|]. split; [set_solver|].
      apply list_elem_of_singleton in Hf as ->.
      exists root. split; [now left|assumption].
    + destruct (Hp _ Hin) as (Hnew & Hseen & r0 & Hr0 & Hfrom).
      split; [set_solver|]. split; [assumption|].
      exists r0. split; [now right|assumption].
Qed.

(** *** Termination *)



Lemma walk_fuel_mono fuel fuel' st r :
  walk fuel fs o st = Some r -> (fuel <= fuel')%nat ->
  walk fuel' fs o st = Some r.
Proof.
  revert fuel' st.
  induction fuel as [|fuel IH]; intros fuel' [[ys seen] stack] H Hle;
    destruct stack as [|[d k] stack]; cbn [walk] in H; try discriminate.
  1,2: now destruct fuel'.
  destruct fuel' as [|fuel']; [lia|]. cbn [walk].
  destruct (negb (include_hidden o) && is_hidden fs d);
    [apply IH; [assumption|lia]|].
  destruct (scandir fs d); apply IH; (assumption || lia).
Qed.

Lemma discover_from_fuel_mono fuel fuel' roots yielded seen r :
  discover_from fuel fs o roots yielded seen = Some r ->
  (fuel <= fuel')%nat ->
  discover_from fuel' fs o roots yielded seen = Some r.
Proof.
  intros H Hle. revert yielded seen H.
  induction roots as [|root roots IH]; intros ys seen H; cbn in *;
    [assumption|].
  destruct (path_is_file fs root); [now apply IH|].
  destruct (negb (path_exists fs root)); [now apply IH|].
  destruct (walk fuel fs o (ys, seen, [(root, 0)])) as [[ys1 seen1]|] eqn:Hw;
    [|discriminate].
  rewrite (walk_fuel_mono _ _ _ _ Hw Hle). now apply IH.
Qed.


(** *** Files within the depth bound are found *)







Lemma scan_entry_file d k n ys seen stack :
  negb (include_hidden o) && is_hidden fs (d ++ [n]) = false ->
  key_of (d ++ [n]) ∉ seen ->
  (entry_kind fs (follow_symlinks o) (d ++ [n])).1 = true ->
  scan_entry fs o d k n (ys, seen, stack)
  = (ys ++ [d ++ [n]], {[key_of (d ++ [n])]} ∪ seen, stack).
Proof.
  intros Hvis Hnew Hfile. unfold scan_entry.
  rewrite Hvis. fold (key_of (d ++ [n])).
  rewrite decide_False by assumption.
  destruct (entry_kind fs (follow_symlinks o) (d ++ [n])) as [is_f is_d].
  cbn in Hfile. now subst is_f.
Qed.




End Run.

(** *** The sample file system *)


Lemma tree_no_alias (depth : Z) : no_alias Tree.fs (Tree.limited depth).
Proof.
  intros d names n d' names' n' Hs Hn Hs' Hn' Hkey.
  cbn in Hs, Hs'. unfold Tree.listing in Hs, Hs'.
  repeat case_decide; try discriminate; subst d d';
    inversion Hs; inversion Hs'; subst names names';
    repeat (apply elem_of_cons in Hn as [->|Hn]); try (by inversion Hn);
    repeat (apply elem_of_cons in Hn' as [->|Hn']); try (by inversion Hn');
    try reflexivity; vm_compute in Hkey; discriminate.
Qed.


(** In the sample tree with [max_depth = 1]: the file at depth 1 is
    reached and yielded, the file at depth 2 is not yielded. *)
Lemma tree_depth_example :
  discover_files 20 Tree.fs (Tree.limited 1) [["r"]]
  = Some [["r"; "a.txt"]; ["r"; "sub"; "deep.txt"]]
  /\ reaches Tree.fs (Tree.limited 1) ["r"] 0 ["r"; "sub"; "deep.txt"]
  /\ ["r"; "sub"; "subsub"; "deeper.txt"]
     ∉ [["r"; "a.txt"]; ["r"; "sub"; "deep.txt"]].
Proof.
  split; [vm_compute; reflexivity|]. split.
  - apply (reaches_dir Tree.fs (Tree.limited 1) ["r"] 0
             ["a.txt"; ".hid"; "sub"] "sub"); try reflexivity.
    + right; right; left.
    + intros m Hm. inversion Hm. lia.
    + apply (reaches_file Tree.fs (Tree.limited 1) ["r"; "sub"] (0 + 1)
               ["deep.txt"; "subsub"] "deep.txt"); try reflexivity.
      left.
  - intros Hin. repeat (apply elem_of_cons in Hin as [Hin|Hin];
                        [discriminate|]).
    inversion Hin.
Qed.

(** *** Recording and the hidden filter *)

(** C3, as amended: with [include_hidden = false] the hidden filter
    comes first; a hidden child leaves the seen-set, the stack and the
    yielded paths as they were, so its key is not recorded.  The key of a
    child that is not hidden is in the seen-set once the child has been
    handled, whatever is decided about yielding or descending. *)
Theorem hidden_child_is_not_recorded (fs : FS) (o : Options) (d : path)
    (k : Z) (n : string) (st : scan_state) :
  include_hidden o = false ->
  is_hidden fs (d ++ [n]) = true ->
  scan_entry fs o d k n st = st
  /\ (forall n', is_hidden fs (d ++ [n']) = false ->
       key_of fs o (d ++ [n']) ∈ (scan_entry fs o d k n' st).1.2).
Proof.
  intros Hinc Hhid. split.
  - destruct st as [[ys seen] stack]. unfold scan_entry.
    now rewrite Hinc, Hhid.
  - intros n' Hvis. destruct st as [[ys seen] stack]. unfold scan_entry.
    rewrite Hvis, andb_false_r. fold (key_of fs o (d ++ [n'])).
    destruct (decide (key_of fs o (d ++ [n']) ∈ seen)); [assumption|].
    assert (Hin : key_of fs o (d ++ [n']) ∈ {[key_of fs o (d ++ [n'])]} ∪ seen)
      by (apply elem_of_union_l, elem_of_singleton; reflexivity).
    destruct (entry_kind fs (follow_symlinks o) (d ++ [n'])) as [[] []];
      repeat case_match; exact Hin.
Qed.

Lemma hidden_child_is_not_recorded_witness :
  scan_entry Sample.fs (Sample.following None) ["r"] 0 ".hid" ([], ∅, [])
  = ([], ∅, [])
  /\ (forall n', is_hidden Sample.fs (["r"] ++ [n']) = false ->
       key_of Sample.fs (Sample.following None) (["r"] ++ [n'])
       ∈ (scan_entry Sample.fs (Sample.following None) ["r"] 0 n'
            ([], ∅, [])).1.2).
Proof.
  apply (hidden_child_is_not_recorded Sample.fs (Sample.following None)
           ["r"] 0 ".hid" ([], ∅, [])); reflexivity.
Defined.

Lemma hidden_child_recorded_counterexample :
  ~ Stated.records_every_child Sample.fs (Sample.following None) ["r"] 0
      ["a.txt"; ".hid"; "loop"; "sub"] ([], ∅, [])
  /\ discover_files 20 Sample.fs (Sample.following None) [["r"]]
     = Some [["r"; "a.txt"]; ["r"; "sub"; "deep.txt"];
             ["r"; "sub"; "subsub"; "deeper.txt"]]
  /\ (forall r,
       discover_from 20 Sample.fs (Sample.following None) [["r"]] [] ∅
       = Some r ->
       key_of Sample.fs (Sample.following None) ["r"; ".hid"] ∉ r.2).
Proof.
  split.
  - intros H.
    assert (Hin : ".hid" ∈ ["a.txt"; ".hid"; "loop"; "sub"])
      by (right; left).
    apply H in Hin. revert Hin.
    apply (bool_decide_unpack (~ _)). vm_compute. exact I.
  - split; [vm_compute; reflexivity|]. intros r Hr.
    assert (Hnot : key_of Sample.fs (Sample.following None) ["r"; ".hid"]
              ∉ default ∅ (snd <$> discover_from 20 Sample.fs
                             (Sample.following None) [["r"]] [] ∅))
      by (apply (bool_decide_unpack (~ _)); vm_compute; exact I).
    now rewrite Hr in Hnot.
Qed.

(** *** Deduplication and termination *)



(** *** Hidden entries *)

Lemma discovered_from_root (fs : FS) (o : Options) (fuel : nat)
    (roots ys : list path) (p : path) :
  discover_files fuel fs o roots = Some ys -> p ∈ ys ->
  (p ∈ roots /\ path_is_file fs p = true)
  \/ exists root, root ∈ roots /\ from_frame fs o (root, 0) p.
Proof.
  unfold discover_files. intros H Hin.
  destruct (discover_from fuel fs o roots [] ∅) as [r|] eqn:Hr;
    [|discriminate].
  inversion H; subst ys; clear H.
  apply discover_from_spec in Hr as (tr & Hperm & _ & _ & Hp).
  rewrite Hperm in Hin. cbn in Hin.
  apply elem_of_app in Hin as [Hin|Hin].
  - left. apply list_elem_of_In, filter_In in Hin as [Hin Hfile].
    split; [now apply list_elem_of_In|assumption].
  - right. destruct (Hp _ Hin) as (_ & _ & root & Hroot & Hfrom).
    now exists root.
Qed.

(** C5, as amended: with [include_hidden = false], a yielded path is
    either a root that is a regular file, yielded as it was given, or a
    path below a root directory whose own name does not start with the
    hidden marker, through names none of which starts with it.  The
    components of the root above its last are not looked at. *)
Theorem no_hidden_name_below_root (fs : FS) (o : Options) (fuel : nat)
    (roots ys : list path) (p : path) :
  include_hidden o = false ->
  discover_files fuel fs o roots = Some ys ->
  p ∈ ys ->
  (p ∈ roots /\ path_is_file fs p = true)
  \/ exists root ns,
       root ∈ roots /\ p = root ++ ns /\ ns <> []
       /\ starts_with_dot (name root) = false
       /\ Forall (fun n => starts_with_dot n = false) ns.
Proof.
  intros Hinc Hrun Hin.
  destruct (discovered_from_root fs o fuel roots ys p Hrun Hin)
    as [Hroot|(root & Hroot & ns & Hne & Hp & Hhid & _)]; [now left|].
  right. exists root, ns. cbn in *. destruct (Hhid Hinc) as [Hr Hns].
  repeat split; try assumption. now apply (is_hidden_dot fs).
Qed.

Lemma no_hidden_name_below_root_witness :
  (["r"; "sub"; "deep.txt"] ∈ [["r"]] /\
   path_is_file Sample.fs ["r"; "sub"; "deep.txt"] = true)
  \/ exists root ns,
       root ∈ [["r"]] /\ ["r"; "sub"; "deep.txt"] = root ++ ns /\ ns <> []
       /\ starts_with_dot (name root) = false
       /\ Forall (fun n => starts_with_dot n = false) ns.
Proof.
  apply (no_hidden_name_below_root Sample.fs (Sample.following None) 20
           [["r"]]
           [["r"; "a.txt"]; ["r"; "sub"; "deep.txt"];
            ["r"; "sub"; "subsub"; "deeper.txt"]]).
  - reflexivity.
  - vm_compute. reflexivity.
  - right; left.
Defined.

Lemma hidden_component_counterexample :
  discover_files 20 Sample.fs (Sample.following None) [[".config"; "r"]]
  = Some [[".config"; "r"; "a.txt"]; [".config"; "r"; "sub"; "deep.txt"];
          [".config"; "r"; "sub"; "subsub"; "deeper.txt"]]
  /\ ~ Stated.no_hidden_component Sample.fs [[".config"; "r"]]
        [[".config"; "r"; "a.txt"]; [".config"; "r"; "sub"; "deep.txt"];
         [".config"; "r"; "sub"; "subsub"; "deeper.txt"]].
Proof.
  split; [vm_compute; reflexivity|]. intros H.
  destruct (H [".config"; "r"; "a.txt"]) as [[Hroot _]|Hall]; [left|..].
  - apply list_elem_of_singleton in Hroot. discriminate.
  - inversion Hall as [|c cs Hdot _]. vm_compute in Hdot. discriminate.
Qed.

(** *** The depth bound *)



End DiscoveryFacts.

Module IngestionFacts.
Import Ingestion Effects.

#[local] Arguments header : simpl never.

Lemma extends_refl s : extends s s.
Proof. exists []. now rewrite app_nil_r. Qed.


Lemma extends_trans s1 s2 s3 : extends s1 s2 -> extends s2 s3 -> extends s1 s3.
Proof.
  intros [x Hx] [y Hy]. exists (x ++ y). now rewrite Hy, Hx, app_assoc.
Qed.

Lemma appends_ret {A} (a : A) : appends (ret a).
Proof. intros s. split; [apply extends_refl|reflexivity]. Qed.

Lemma appends_raise {A} : appends (@raise A).
Proof. intros s. split; [apply extends_refl|reflexivity]. Qed.

Lemma appends_of_option {A} (x : option A) : appends (of_option x).
Proof. destruct x; [apply appends_ret|apply appends_raise]. Qed.

Lemma appends_bind {A B} (m : M A) (k : A -> M B) :
  appends m -> (forall a, appends (k a)) -> appends (bind m k).
Proof.
  intros Hm Hk s. unfold bind. destruct (Hm s) as [He Hs].
  destruct (m s) as [[a|] s1]; cbn in *; [|now split].
  destruct (Hk a s1) as [He' Hs']. split.
  - eapply extends_trans; eassumption.
  - congruence.
Qed.

Lemma appends_write bs : appends (write bs).
Proof.
  intros s. unfold write.
  destruct (writes_left (sink s)) as [[|n]|]; cbn;
    (split; [|reflexivity]); try apply extends_refl; now exists bs.
Qed.

Lemma appends_decode_and_write data : appends (decode_and_write data).
Proof.
  unfold decode_and_write. destruct (Resolver.try_decode data) as [txt enc].
  apply appends_bind; [apply appends_of_option|]. intros bs.
  apply appends_bind; [apply appends_write|]. intros _. apply appends_ret.
Qed.

Lemma appends_read_chunk f idx handle : appends (read_chunk f idx handle).
Proof.
  unfold read_chunk. case_decide; [apply appends_raise|apply appends_ret].
Qed.

Lemma appends_stream_loop fuel f idx handle enc :
  appends (stream_loop fuel f idx handle enc).
Proof.
  revert idx handle enc.
  induction fuel as [|fuel IH]; intros idx handle enc; cbn [stream_loop].
  - apply appends_raise.
  - apply appends_bind; [apply appends_read_chunk|]. intros [|b chunk].
    + apply appends_ret.
    + apply appends_bind; [apply appends_decode_and_write|]. intros enc'.
      apply IH.
Qed.

Lemma appends_sample (sample : list byte) :
  appends (match sample with
           | [] => ret "unknown"
           | _ => decode_and_write sample
           end).
Proof.
  destruct sample; [apply appends_ret|apply appends_decode_and_write].
Qed.

Lemma write_header_effect bs s :
  writes_left (sink s) <> Some O ->
  exists s1, write bs s = (Some tt, s1)
             /\ written (sink s1) = written (sink s) ++ bs
             /\ writes_left (sink s1) = Nat.pred <$> writes_left (sink s)
             /\ summary s1 = summary s.
Proof.
  intros Hleft. unfold write.
  destruct (writes_left (sink s)) as [[|n]|]; [done|..];
    eexists; repeat split.
Qed.

Ltac step_appends H s :=
  let He := fresh "He" in
  let Hs := fresh "Hs" in
  destruct (H s) as [He Hs].

(** What [write_frame] leaves behind: the sink extended; the summary as
    it was when it raised, and with the file counted as processed when it
    did not; the header in the sink whenever the sink took one write. *)
Lemma write_frame_effect a f sample s :
  extends s (write_frame a f sample s).2
  /\ ((write_frame a f sample s).1 = None ->
      summary (write_frame a f sample s).2 = summary s)
  /\ ((write_frame a f sample s).1 <> None ->
      exists enc,
        summary (write_frame a f sample s).2
        = incr_processed
            (if encoding_report a
             then record_encoding (path_posix f) enc (summary s)
             else summary s))
  /\ (writes_left (sink s) <> Some O ->
      exists rest,
        written (sink (write_frame a f sample s).2)
        = written (sink s) ++ header f ++ rest).
Proof.
  unfold write_frame, bind.
  destruct (appends_write (header f) s) as [He1 Hs1].
  destruct (write (header f) s) as [[[]|] s1] eqn:Hw; cbn in He1, Hs1.
  2: { cbn. repeat split; try done.
       intros Hleft. destruct (write_header_effect (header f) s Hleft)
         as (s1' & Hw' & _). congruence. }
  assert (Hhead : writes_left (sink s) <> Some O ->
            written (sink s1) = written (sink s) ++ header f).
  { intros Hleft. destruct (write_header_effect (header f) s Hleft)
      as (s1' & Hw' & Hwr & _). congruence. }
  destruct (appends_of_option (stream_open f) s1) as [He2 Hs2].
  destruct (of_option (stream_open f) s1) as [[handle|] s2]; cbn in He2, Hs2.
  2: { cbn. split; [eapply extends_trans; eassumption|].
       split; [congruence|]. split; [done|].
       intros Hleft. destruct He2 as [x Hx]. exists x.
       rewrite Hx, (Hhead Hleft); now repeat rewrite <- app_assoc. }
  destruct (appends_sample sample s2) as [He3 Hs3].
  destruct (match sample with
            | [] => ret "unknown"
            | _ => decode_and_write sample
            end s2) as [[enc|] s3]; cbn in He3, Hs3.
  2: { cbn. split; [eauto using extends_trans|].
       split; [congruence|]. split; [done|].
       intros Hleft. destruct He2 as [x Hx], He3 as [y Hy]. exists (x ++ y).
       rewrite Hy, Hx, (Hhead Hleft); now repeat rewrite <- app_assoc. }
  destruct (appends_stream_loop (S (length handle)) f 0 handle enc s3)
    as [He4 Hs4].
  destruct (stream_loop (S (length handle)) f 0 handle enc s3)
    as [[enc'|] s4]; cbn in He4, Hs4.
  2: { cbn. split; [eauto using extends_trans|].
       split; [congruence|]. split; [done|].
       intros Hleft. destruct He2 as [x Hx], He3 as [y Hy], He4 as [z Hz].
       exists (x ++ y ++ z).
       rewrite Hz, Hy, Hx, (Hhead Hleft); now repeat rewrite <- app_assoc. }
  assert (Hext : extends s s4) by eauto using extends_trans.
  assert (Hsum : summary s4 = summary s) by congruence.
  destruct (encoding_report a); cbn.
  all: split; [destruct Hext as [x Hx]; now exists x|].
  all: split; [done|]. all: split; [intros _; exists enc'; now rewrite Hsum|].
  all: intros Hleft; destruct He2 as [x Hx], He3 as [y Hy], He4 as [z Hz];
       exists (x ++ y ++ z);
       rewrite Hz, Hy, Hx, (Hhead Hleft); now repeat rewrite <- app_assoc.
Qed.




Lemma count_total_effect (files : list File) s :
  sink (foldl (fun s _ => {| sink := sink s;
                             summary := incr_total (summary s) |}) s files)
  = sink s
  /\ outcomes (summary (foldl (fun s _ =>
        {| sink := sink s; summary := incr_total (summary s) |}) s files))
     = outcomes (summary s)
  /\ total_files (summary (foldl (fun s _ =>
        {| sink := sink s; summary := incr_total (summary s) |}) s files))
     = total_files (summary s) + Z.of_nat (length files).
Proof.
  revert s. induction files as [|f files IH]; intros s; cbn [foldl].
  - cbn. repeat split. lia.
  - destruct (IH {| sink := sink s; summary := incr_total (summary s) |})
      as (-> & -> & ->). cbn. repeat split. lia.
Qed.



Lemma sink_process_file a f s :
  sink (process_file a f s) = sink (file_body a f s).2.
Proof. unfold process_file. now destruct (file_body a f s) as [[[]|] s1]. Qed.

Lemma file_body_frame a f s contents :
  too_large a f = false -> sample_open f = Some contents ->
  Classifier.looks_binary_bytes (take SAMPLE_SIZE contents) = false ->
  file_body a f s = write_frame a f (take SAMPLE_SIZE contents) s.
Proof. intros Hsize Hopen Hbin. unfold file_body. now rewrite Hsize, Hopen, Hbin. Qed.


Lemma decode_and_write_utf8 t data s :
  utf8_encode t = Some data -> writes_left (sink s) = None ->
  decode_and_write data s
  = (Some "utf-8",
     {| sink := {| written := written (sink s) ++ data;
                   writes_left := None |};
        summary := summary s |}).
Proof.
  intros Henc Hleft. unfold decode_and_write.
  rewrite (ResolverFacts.try_decode_utf8 data t)
    by now apply CodecFacts.utf8_round_trip.
  unfold bind, of_option, write. rewrite Henc. cbn. now rewrite Hleft.
Qed.





(** *** The sample is written a second time *)

Lemma small_utf8_frame a f s data t :
  stream_open f = Some data -> read_fault f = None ->
  data <> [] -> (length data <= SAMPLE_SIZE)%nat ->
  utf8_encode t = Some data ->
  writes_left (sink s) = None ->
  write_frame a f data s
  = (Some tt,
     {| sink := {| written := written (sink s) ++ header f ++ data ++ data;
                   writes_left := None |};
        summary :=
          incr_processed
            (if encoding_report a
             then record_encoding (path_posix f) "utf-8" (summary s)
             else summary s) |}).
Proof.
  intros Hstream Hfault Hne Hlen Henc Hleft.
  unfold write_frame.
  unfold bind at 1. unfold write at 1. rewrite Hleft.
  cbn [fmap option_fmap option_map].
  unfold bind at 1. rewrite Hstream. cbn [of_option ret].
  unfold bind at 1.
  destruct data as [|b data'] eqn:Hdata; [done|]. rewrite <- Hdata in *.
  replace (match data with [] => ret "unknown" | _ => decode_and_write data end)
    with (decode_and_write data) by now rewrite Hdata.
  rewrite (decode_and_write_utf8 t) by done. cbn [sink written summary].
  unfold bind at 1. cbn [stream_loop]. unfold bind at 1.
  unfold read_chunk. rewrite Hfault.
  destruct (decide (None = Some 0%nat)) as [Hd|_]; [discriminate|].
  cbn [ret].
  assert (Hchunk : take CHUNK_SIZE data = data).
  { apply take_ge. unfold CHUNK_SIZE, SAMPLE_SIZE in *. lia. }
  assert (Hdrop : drop CHUNK_SIZE data = []).
  { apply drop_ge. unfold CHUNK_SIZE, SAMPLE_SIZE in *. lia. }
  rewrite Hchunk, Hdrop.
  replace (match data with
           | [] => ret "utf-8"
           | _ => bind (decode_and_write data)
                    (fun enc => stream_loop (length data) f 1 [] enc)
           end)
    with (bind (decode_and_write data)
            (fun enc => stream_loop (length data) f 1 [] enc))
    by now rewrite Hdata.
  unfold bind at 1. rewrite (decode_and_write_utf8 t) by done.
  cbn [sink written summary].
  replace (length data) with (S (length data')) by now rewrite Hdata.
  cbn [stream_loop]. unfold bind at 1. unfold read_chunk. rewrite Hfault.
  destruct (decide (None = Some 1%nat)) as [Hd|_]; [discriminate|].
  cbn [ret]. rewrite take_nil. unfold bind.
  destruct (encoding_report a); cbn; now repeat rewrite <- app_assoc.
Qed.

Lemma small_utf8_file_written_twice a f s data t :
  too_large a f = false ->
  sample_open f = Some data -> stream_open f = Some data ->
  read_fault f = None ->
  data <> [] -> (length data <= SAMPLE_SIZE)%nat ->
  utf8_encode t = Some data ->
  Classifier.looks_binary_bytes data = false ->
  writes_left (sink s) = None ->
  written (sink (process_file a f s))
  = written (sink s) ++ header f ++ data ++ data
  /\ processed (summary (process_file a f s)) = processed (summary s) + 1.
Proof.
  intros Hsize Hopen Hstream Hfault Hne Hlen Henc Hbin Hleft.
  assert (Htake : take SAMPLE_SIZE data = data) by now apply take_ge.
  unfold process_file.
  rewrite (file_body_frame a f s data), Htake by (rewrite ?Htake; done).
  rewrite (small_utf8_frame a f s data t) by assumption.
  cbn. split; [reflexivity|]. now destruct (encoding_report a).
Qed.

(** C1 at the input [a.txt] holding [hello]: after the header the five
    bytes are in the output twice, once from the sample and once from
    the first chunk of the second handle, and the file counts as
    processed. *)
Theorem hello_is_written_twice :
  written (sink (process_files_sequential SampleFiles.args
                   [SampleFiles.a_txt] SampleFiles.start))
  = header SampleFiles.a_txt ++ SampleFiles.hello ++ SampleFiles.hello
  /\ processed (summary (process_files_sequential SampleFiles.args
                           [SampleFiles.a_txt] SampleFiles.start)) = 1.
Proof.
  unfold process_files_sequential. cbn [foldl].
  assert (Hlen : (length SampleFiles.hello <= SAMPLE_SIZE)%nat)
    by (unfold SAMPLE_SIZE; cbn; lia).
  assert (Hbin : Classifier.looks_binary_bytes SampleFiles.hello = false)
    by (vm_compute; reflexivity).
  assert (Henc : utf8_encode [104; 101; 108; 108; 111]
                 = Some SampleFiles.hello) by (vm_compute; reflexivity).
  destruct (small_utf8_file_written_twice SampleFiles.args SampleFiles.a_txt
              {| sink := sink SampleFiles.start;
                 summary := incr_total (summary SampleFiles.start) |}
              SampleFiles.hello [104; 101; 108; 108; 111]
              eq_refl eq_refl eq_refl eq_refl ltac:(discriminate)
              Hlen Henc Hbin eq_refl) as [Hw Hp].
  split; [rewrite Hw|rewrite Hp]; reflexivity.
Qed.

(** *** One file's failure *)



(** *** The sink only grows *)




(** The sink after [a.txt] failed at its second read and [b.txt] went
    through: the header of [a.txt], [hello] twice, then the frame of
    [b.txt]; one error, one file processed. *)
Lemma partial_frame_example :
  written (sink (process_files_sequential SampleFiles.args
                   [SampleFiles.a_faulty; SampleFiles.b_txt]
                   SampleFiles.start))
  = header SampleFiles.a_faulty ++ SampleFiles.hello ++ SampleFiles.hello
    ++ header SampleFiles.b_txt ++ SampleFiles.hello ++ SampleFiles.hello
  /\ errors (summary (process_files_sequential SampleFiles.args
                        [SampleFiles.a_faulty; SampleFiles.b_txt]
                        SampleFiles.start)) = 1
  /\ processed (summary (process_files_sequential SampleFiles.args
                           [SampleFiles.a_faulty; SampleFiles.b_txt]
                           SampleFiles.start)) = 1.
Proof. vm_compute. repeat split. Qed.

End IngestionFacts.

(** ** More on the codecs and the resolver *)

Module CodecMore.
Import CodecFacts.

Lemma byte_of_val (b : byte) : byte_of (byte_val b) = b.
Proof.
  unfold byte_of, byte_val. rewrite N2Z.id. now rewrite Byte.of_to_N.
Qed.

Lemma fmap_cons_some (c : Z) (o : option text) (t : text) :
  cons c <$> o = Some t -> exists t', o = Some t' /\ t = c :: t'.
Proof.
  destruct o as [t'|]; cbn; intros H; [|discriminate].
  inversion H. now exists t'.
Qed.

(** One step of the strict decoder, read backwards: the bytes it took
    are the encoding of the code point it gave. *)
Lemma utf8_decode_strict_step (b0 : byte) (r0 : list byte) (t : text) :
  utf8_decode strict (b0 :: r0) = Some t ->
  exists c bs rest t',
    b0 :: r0 = bs ++ rest /\ (length rest < length (b0 :: r0))%nat
    /\ utf8_encode_char c = Some bs
    /\ utf8_decode strict rest = Some t' /\ t = c :: t'.
Proof.
  cbn [utf8_decode]. cbv zeta. unfold is_continuation.
  pose proof (byte_val_range b0) as R0.
  destruct (Z.ltb_spec (byte_val b0) 0x80).
  { intros Hdec. apply fmap_cons_some in Hdec as (t' & Hd & ->).
    exists (byte_val b0), [b0], r0, t'. cbn [app length].
    split; [done|]. split; [lia|]. split; [|done].
    unfold utf8_encode_char, is_scalar, is_surrogate.
    rewrite byte_of_val.
    repeat match goal with
    | |- context [?a <=? ?b] => destruct (Z.leb_spec a b); try lia
    | |- context [?a <? ?b] => destruct (Z.ltb_spec a b); try lia
    end; reflexivity. }
  destruct (Z.ltb_spec (byte_val b0) 0xC2); [discriminate|].
  destruct (Z.ltb_spec (byte_val b0) 0xE0).
  { destruct r0 as [|b1 r1]; [discriminate|].
    pose proof (byte_val_range b1) as R1.
    destruct (Z.leb_spec 0x80 (byte_val b1));
      destruct (Z.ltb_spec (byte_val b1) 0xC0); cbn [andb];
      try discriminate.
    intros Hdec. apply fmap_cons_some in Hdec as (t' & Hd & ->).
    eexists _, [b0; b1], r1, t'. cbn [app length].
    split; [done|]. split; [lia|]. split; [|done].
    unfold utf8_encode_char, is_scalar, is_surrogate.
    set (c := (byte_val b0 - 192) * 64 + (byte_val b1 - 128)).
    assert (Ec : 0x80 <= c < 0x800) by (subst c; lia).
    assert (E0 : 0xC0 + c / 64 = byte_val b0) by (subst c; zlia).
    assert (E1 : 0x80 + c mod 64 = byte_val b1) by (subst c; zlia).
    rewrite E0, E1, !byte_of_val.
    repeat match goal with
    | |- context [?a <=? ?b] => destruct (Z.leb_spec a b); try lia
    | |- context [?a <? ?b] => destruct (Z.ltb_spec a b); try lia
    end; reflexivity. }
  destruct (Z.ltb_spec (byte_val b0) 0xF0).
  { destruct r0 as [|b1 r1]; [discriminate|].
    pose proof (byte_val_range b1) as R1.
    destruct (Z.leb_spec 0x80 (byte_val b1));
      destruct (Z.ltb_spec (byte_val b1) 0xC0); cbn [andb negb orb];
      try discriminate.
    destruct (Z.ltb_spec (byte_val b1) 0xA0);
      [destruct (Z.eqb_spec (byte_val b0) 0xE0)
      |destruct (Z.eqb_spec (byte_val b0) 0xED)]; try discriminate.
    all: destruct r1 as [|b2 r2]; [discriminate|];
      pose proof (byte_val_range b2) as R2;
      destruct (Z.leb_spec 0x80 (byte_val b2));
      destruct (Z.ltb_spec (byte_val b2) 0xC0); cbn [andb];
      try discriminate;
      intros Hdec; apply fmap_cons_some in Hdec as (t' & Hd & ->);
      eexists _, [b0; b1; b2], r2, t'; cbn [app length];
      (split; [done|]); (split; [lia|]); (split; [|done]);
      unfold utf8_encode_char, is_scalar, is_surrogate;
      set (c := (byte_val b0 - 224) * 4096 + (byte_val b1 - 128) * 64
                + (byte_val b2 - 128));
      assert (Ec : 0x800 <= c < 0x10000) by (subst c; lia);
      assert (Es : c < 0xD800 \/ 0xDFFF < c) by (subst c; lia);
      assert (E0 : 0xE0 + c / 4096 = byte_val b0) by (subst c; zlia);
      assert (E1 : 0x80 + (c / 64) mod 64 = byte_val b1) by (subst c; zlia);
      assert (E2 : 0x80 + c mod 64 = byte_val b2) by (subst c; zlia);
      rewrite E0, E1, E2, !byte_of_val;
      repeat match goal with
      | |- context [?a <=? ?b] => destruct (Z.leb_spec a b); try lia
      | |- context [?a <? ?b] => destruct (Z.ltb_spec a b); try lia
      end; reflexivity. }
  destruct (Z.ltb_spec (byte_val b0) 0xF5); [|discriminate].
  destruct r0 as [|b1 r1]; [discriminate|].
  pose proof (byte_val_range b1) as R1.
  destruct (Z.leb_spec 0x80 (byte_val b1));
    destruct (Z.ltb_spec (byte_val b1) 0xC0); cbn [andb negb orb];
    try discriminate.
  destruct (Z.ltb_spec (byte_val b1) 0x90);
    [destruct (Z.eqb_spec (byte_val b0) 0xF0)
    |destruct (Z.eqb_spec (byte_val b0) 0xF4)]; try discriminate.
  all: destruct r1 as [|b2 r2]; [discriminate|];
    pose proof (byte_val_range b2) as R2;
    destruct (Z.leb_spec 0x80 (byte_val b2));
    destruct (Z.ltb_spec (byte_val b2) 0xC0); cbn [andb negb];
    try discriminate;
    destruct r2 as [|b3 r3]; [discriminate|];
    pose proof (byte_val_range b3) as R3;
    destruct (Z.leb_spec 0x80 (byte_val b3));
    destruct (Z.ltb_spec (byte_val b3) 0xC0); cbn [andb];
    try discriminate;
    intros Hdec; apply fmap_cons_some in Hdec as (t' & Hd & ->);
    eexists _, [b0; b1; b2; b3], r3, t'; cbn [app length];
    (split; [done|]); (split; [lia|]); (split; [|done]);
    unfold utf8_encode_char, is_scalar, is_surrogate;
    set (c := (byte_val b0 - 240) * 262144 + (byte_val b1 - 128) * 4096
              + (byte_val b2 - 128) * 64 + (byte_val b3 - 128));
    assert (Ec : 0x10000 <= c <= 0x10FFFF) by (subst c; lia);
    assert (E0 : 0xF0 + c / 262144 = byte_val b0) by (subst c; zlia);
    assert (E1 : 0x80 + (c / 4096) mod 64 = byte_val b1) by (subst c; zlia);
    assert (E2 : 0x80 + (c / 64) mod 64 = byte_val b2) by (subst c; zlia);
    assert (E3 : 0x80 + c mod 64 = byte_val b3) by (subst c; zlia);
    rewrite E0, E1, E2, E3, !byte_of_val;
    repeat match goal with
    | |- context [?a <=? ?b] => destruct (Z.leb_spec a b); try lia
    | |- context [?a <? ?b] => destruct (Z.ltb_spec a b); try lia
    end; reflexivity.
Qed.

Lemma utf8_decode_strict_encode (bs : list byte) (t : text) :
  utf8_decode strict bs = Some t -> utf8_encode t = Some bs.
Proof.
  remember (length bs) as n eqn:Hn. revert bs t Hn.
  induction n as [n IH] using lt_wf_ind. intros bs t Hn Hdec.
  destruct bs as [|b0 r0].
  { cbn in Hdec. now inversion Hdec. }
  apply utf8_decode_strict_step in Hdec
    as (c & cs & rest & t' & Hsplit & Hlen & Hc & Hrest & ->).
  cbn [utf8_encode]. rewrite Hc.
  rewrite (IH (length rest)) with (bs := rest) (t := t');
    [now rewrite Hsplit|lia|reflexivity|assumption].
Qed.

Lemma utf8_encode_char_scalar (c : Z) (bs : list byte) :
  utf8_encode_char c = Some bs -> is_scalar c = true.
Proof.
  unfold utf8_encode_char. now destruct (is_scalar c).
Qed.

Lemma utf8_encode_scalars (t : text) :
  Forall (fun c => is_scalar c = true) t -> is_Some (utf8_encode t).
Proof.
  induction 1 as [|c t Hc _ [bs IH]]; cbn [utf8_encode]; [done|].
  unfold utf8_encode_char. rewrite Hc, IH. cbn [negb].
  repeat case_match; done.
Qed.

Lemma utf8_encode_only_scalars (t : text) (bs : list byte) :
  utf8_encode t = Some bs -> Forall (fun c => is_scalar c = true) t.
Proof.
  revert bs. induction t as [|c t IH]; intros bs H; [constructor|].
  cbn [utf8_encode] in H.
  destruct (utf8_encode_char c) as [bc|] eqn:Ec; [|discriminate].
  destruct (utf8_encode t) as [bt|] eqn:Et; [|discriminate].
  constructor; [now apply (utf8_encode_char_scalar c bc)|now apply (IH bt)].
Qed.

(** The 16-bit units are below 65536. *)
Lemma utf16_units_range (little : bool) (bs : list byte) (us : list Z) :
  utf16_units little bs = Some us -> Forall (fun u => 0 <= u < 65536) us.
Proof.
  remember (length bs) as n eqn:Hn. revert bs us Hn.
  induction n as [n IH] using lt_wf_ind. intros bs us Hn H.
  destruct bs as [|b0 [|b1 rest]]; cbn [utf16_units] in H.
  - inversion H. constructor.
  - discriminate.
  - cbv zeta in H. apply fmap_cons_some in H as (us' & Hrest & ->).
    pose proof (byte_val_range b0). pose proof (byte_val_range b1).
    constructor; [destruct little; lia|].
    apply (IH (length rest)) with (bs := rest); cbn [length] in *;
      [lia|reflexivity|assumption].
Qed.

Lemma utf16_join_scalars (us : list Z) (t : text) :
  Forall (fun u => 0 <= u < 65536) us -> utf16_join us = Some t ->
  Forall (fun c => is_scalar c = true) t.
Proof.
  remember (length us) as n eqn:Hn. revert us t Hn.
  induction n as [n IH] using lt_wf_ind. intros us t Hn Hrange H.
  destruct us as [|u r]; cbn [utf16_join] in H.
  { inversion H. constructor. }
  apply Forall_cons in Hrange as [Hu Hr].
  destruct (Z.leb_spec 0xD800 u); destruct (Z.leb_spec u 0xDBFF);
    cbn [andb] in H.
  1: { destruct r as [|lo r']; [discriminate|].
       apply Forall_cons in Hr as [Hlo Hr'].
       destruct (Z.leb_spec 0xDC00 lo); destruct (Z.leb_spec lo 0xDFFF);
         cbn [andb] in H; try discriminate.
       apply fmap_cons_some in H as (t' & Hrest & ->).
       constructor.
       - unfold is_scalar, is_surrogate.
         repeat match goal with
         | |- context [?a <=? ?b] => destruct (Z.leb_spec a b); try lia
         end; reflexivity.
       - apply (IH (length r')) with (us := r'); cbn [length] in *;
           [lia|reflexivity|assumption|assumption]. }
  all: destruct (Z.leb_spec 0xDC00 u); destruct (Z.leb_spec u 0xDFFF);
    cbn [andb] in H; try discriminate; try lia.
  all: apply fmap_cons_some in H as (t' & Hrest & ->); constructor;
    [unfold is_scalar, is_surrogate;
     repeat match goal with
     | |- context [?a <=? ?b] => destruct (Z.leb_spec a b); try lia
     end; reflexivity
    |apply (IH (length r)) with (us := r); cbn [length] in *;
     [lia|reflexivity|assumption|assumption]].
Qed.

Lemma utf16_order_scalars (little : bool) (bs : list byte) (t : text) :
  utf16_decode_order little bs = Some t ->
  Forall (fun c => is_scalar c = true) t.
Proof.
  unfold utf16_decode_order. intros H.
  destruct (utf16_units little bs) as [us|] eqn:Hu; [|discriminate].
  cbn in H. apply (utf16_join_scalars us); [|assumption].
  now apply (utf16_units_range little bs).
Qed.

Lemma utf16_scalars (bs : list byte) (t : text) :
  utf16_decode bs = Some t -> Forall (fun c => is_scalar c = true) t.
Proof.
  unfold utf16_decode. intros H.
  repeat case_match; now apply utf16_order_scalars in H.
Qed.

Lemma utf8_strict_scalars (bs : list byte) (t : text) :
  utf8_decode strict bs = Some t -> Forall (fun c => is_scalar c = true) t.
Proof.
  intros H. apply utf8_decode_strict_encode in H.
  now apply (utf8_encode_only_scalars t bs).
Qed.

Lemma latin1_scalars (bs : list byte) :
  Forall (fun c => is_scalar c = true) (latin1_text bs).
Proof.
  unfold latin1_text. apply Forall_fmap, Forall_forall. intros b _. cbn.
  pose proof (byte_val_range b). unfold is_scalar, is_surrogate.
  repeat match goal with
  | |- context [?a <=? ?b] => destruct (Z.leb_spec a b); try lia
  end; reflexivity.
Qed.

Lemma utf8_sig_fails (data : list byte) :
  utf8_decode strict data = None -> utf8_sig_decode data = None.
Proof.
  unfold utf8_sig_decode. intros H.
  destruct data as [|b0 [|b1 [|b2 rest]]]; try assumption.
  destruct (Z.eqb_spec (byte_val b0) 0xEF); [|assumption].
  destruct (Z.eqb_spec (byte_val b1) 0xBB); [|assumption].
  destruct (Z.eqb_spec (byte_val b2) 0xBF); [|assumption].
  cbn [andb].
  destruct (utf8_decode strict rest) as [t|] eqn:Hrest; [|reflexivity].
  rewrite utf8_decode_3 in H; try lia. now rewrite Hrest in H.
Qed.

End CodecMore.

Module ResolverMore.
Import CodecFacts CodecMore ResolverFacts.

(** X1: bytes that are valid UTF-8 are decoded by the first entry of the
    list: [try_decode] gives their text with the label ["utf-8"], and
    [txt.encode("utf-8")] gives the same bytes back. *)
Theorem valid_utf8_passes_unchanged (data : list byte) (t : text) :
  utf8_decode strict data = Some t ->
  try_decode data = (t, "utf-8")
  /\ utf8_encode (try_decode data).1 = Some data.
Proof.
  intros H. rewrite (try_decode_utf8 data t H). split; [reflexivity|].
  now apply utf8_decode_strict_encode.
Qed.

Lemma valid_utf8_passes_unchanged_witness :
  try_decode [xc3; xa9; x21] = ([0xE9; 0x21], "utf-8")
  /\ utf8_encode (try_decode [xc3; xa9; x21]).1 = Some [xc3; xa9; x21].
Proof.
  apply (valid_utf8_passes_unchanged [xc3; xa9; x21] [0xE9; 0x21]).
  vm_compute. reflexivity.
Defined.

Lemma try_decode_cases (data : list byte) :
  (exists t, utf8_decode strict data = Some t
             /\ try_decode data = (t, "utf-8"))
  \/ (utf8_decode strict data = None
      /\ ((exists t, utf16_decode data = Some t
                     /\ try_decode data = (t, "utf-16"))
          \/ (utf16_decode data = None
              /\ ((exists t, utf16_decode_order true data = Some t
                             /\ try_decode data = (t, "utf-16-le"))
                  \/ (utf16_decode_order true data = None
                      /\ ((exists t, utf16_decode_order false data = Some t
                                     /\ try_decode data = (t, "utf-16-be"))
                          \/ (utf16_decode_order false data = None
                              /\ try_decode data
                                 = (latin1_text data, "latin-1")))))))).
Proof.
  destruct (utf8_decode strict data) as [t|] eqn:H8.
  { left. exists t. split; [reflexivity|]. now apply try_decode_utf8. }
  right. split; [reflexivity|].
  pose proof (utf8_sig_fails data H8) as Hsig.
  unfold try_decode, COMMON_ENCODINGS. cbn [first_decoding].
  change (bytes_decode "utf-8" data) with (utf8_decode strict data).
  change (bytes_decode "utf-8-sig" data) with (utf8_sig_decode data).
  change (bytes_decode "utf-16" data) with (utf16_decode data).
  change (bytes_decode "utf-16-le" data) with (utf16_decode_order true data).
  change (bytes_decode "utf-16-be" data) with (utf16_decode_order false data).
  change (bytes_decode "latin-1" data) with (latin1_decode data).
  rewrite H8, Hsig.
  destruct (utf16_decode data) as [t|]; [left; eauto|right; split; [done|]].
  destruct (utf16_decode_order true data) as [t|];
    [left; eauto|right; split; [done|]].
  destruct (utf16_decode_order false data) as [t|];
    [left; eauto|right; split; [done|]].
  reflexivity.
Qed.

Lemma try_decode_labels (data : list byte) :
  (try_decode data).2
  ∈ ["utf-8"; "utf-16"; "utf-16-le"; "utf-16-be"; "latin-1"].
Proof.
  destruct (try_decode_cases data)
    as [(t & _ & ->)|(_ & [(t & _ & ->)|(_ & [(t & _ & ->)
       |(_ & [(t & _ & ->)|(_ & ->)])])])]; cbn; set_solver.
Qed.

(** X2: the label [try_decode] returns is one of ["utf-8"], ["utf-16"],
    ["utf-16-le"], ["utf-16-be"] and ["latin-1"], and each of the five is
    returned for some input.  ["utf-8-sig"] is never returned, because
    it rejects whatever ["utf-8"] rejects, nor is ["cp1252"], which
    comes after ["latin-1"]. *)
Theorem try_decode_label_range :
  (forall data,
     (try_decode data).2
     ∈ ["utf-8"; "utf-16"; "utf-16-le"; "utf-16-be"; "latin-1"])
  /\ (forall label,
       label ∈ ["utf-8"; "utf-16"; "utf-16-le"; "utf-16-be"; "latin-1"] ->
       exists data, (try_decode data).2 = label).
Proof.
  split.
  - apply try_decode_labels.
  - intros label Hin.
    repeat (apply elem_of_cons in Hin as [->|Hin]).
    + now exists [x41].
    + now exists [xe9; x41].
    + now exists [xfe; xff; xd8; x00].
    + now exists [x00; xd8].
    + now exists [xe9].
    + inversion Hin.
Qed.

(** X3: a UTF-8 file that begins with the byte order mark EF BB BF is
    decoded by ["utf-8"], not by ["utf-8-sig"]: the mark stays in the
    text as U+FEFF, and so reaches the output. *)
Theorem utf8_bom_is_kept (body : list byte) (t : text) :
  utf8_decode strict body = Some t ->
  try_decode (xef :: xbb :: xbf :: body) = (0xFEFF :: t, "utf-8")
  /\ utf8_sig_decode (xef :: xbb :: xbf :: body) = Some t.
Proof.
  intros H. split.
  - apply try_decode_utf8. rewrite utf8_decode_3 by (vm_compute; intuition congruence).
    now rewrite H.
  - unfold utf8_sig_decode. cbn. assumption.
Qed.

Lemma utf8_bom_is_kept_witness :
  try_decode (xef :: xbb :: xbf :: [x68; x69]) = (0xFEFF :: [0x68; 0x69], "utf-8")
  /\ utf8_sig_decode (xef :: xbb :: xbf :: [x68; x69]) = Some [0x68; 0x69].
Proof.
  apply (utf8_bom_is_kept [x68; x69] [0x68; 0x69]). reflexivity.
Defined.

Lemma utf16_units_odd (little : bool) (bs : list byte) :
  Nat.odd (length bs) = true -> utf16_units little bs = None.
Proof.
  remember (length bs) as n eqn:Hn. revert bs Hn.
  induction n as [n IH] using lt_wf_ind. intros bs Hn Hodd.
  destruct bs as [|b0 [|b1 rest]]; cbn [utf16_units]; subst n.
  - discriminate.
  - reflexivity.
  - cbv zeta. rewrite (IH (length rest)) with (bs := rest);
      [reflexivity|cbn; lia|reflexivity|].
    cbn [length] in Hodd. now rewrite Nat.odd_succ_succ in Hodd.
Qed.

(** X4: data of odd length that is not valid UTF-8 is decoded as
    Latin-1, byte for byte: none of the three UTF-16 decoders takes an
    odd number of bytes. *)
Theorem odd_length_falls_to_latin1 (data : list byte) :
  utf8_decode strict data = None ->
  Nat.odd (length data) = true ->
  try_decode data = (byte_val <$> data, "latin-1").
Proof.
  intros H8 Hodd.
  assert (Hle : forall little, utf16_decode_order little data = None).
  { intros little. unfold utf16_decode_order.
    now rewrite utf16_units_odd. }
  assert (H16 : utf16_decode data = None).
  { unfold utf16_decode. destruct data as [|b0 [|b1 rest]]; try apply Hle.
    assert (Hrest : forall little, utf16_decode_order little rest = None).
    { intros little. unfold utf16_decode_order. rewrite utf16_units_odd;
        [reflexivity|]. cbn [length] in Hodd.
      now rewrite Nat.odd_succ_succ in Hodd. }
    repeat case_match; (apply Hrest || apply Hle). }
  destruct (try_decode_cases data)
    as [(t & H & _)|(_ & [(t & H & _)|(_ & [(t & H & _)
       |(_ & [(t & H & _)|(_ & ->)])])])];
    try congruence; try (rewrite Hle in H; discriminate).
  reflexivity.
Qed.

Lemma odd_length_falls_to_latin1_witness :
  try_decode [x63; x61; x66; xe9; x21]
  = (byte_val <$> [x63; x61; x66; xe9; x21], "latin-1").
Proof.
  apply (odd_length_falls_to_latin1 [x63; x61; x66; xe9; x21]);
    vm_compute; reflexivity.
Defined.

(** The text [try_decode] returns holds Unicode scalar values only. *)
Lemma try_decode_scalars (data : list byte) :
  Forall (fun c => is_scalar c = true) (try_decode data).1.
Proof.
  destruct (try_decode_cases data)
    as [(t & H & ->)|(_ & [(t & H & ->)|(_ & [(t & H & ->)
       |(_ & [(t & H & ->)|(_ & ->)])])])]; cbn [fst].
  - now apply (utf8_strict_scalars data).
  - now apply (utf16_scalars data).
  - now apply (utf16_order_scalars true data).
  - now apply (utf16_order_scalars false data).
  - apply latin1_scalars.
Qed.

End ResolverMore.

Module IngestionMore.
Import Ingestion Effects Verdicts IngestionFacts.
Import CodecFacts CodecMore ResolverFacts ResolverMore.

#[local] Arguments header : simpl never.

(** *** The re-encoding *)

Lemma try_decode_encodes (data : list byte) :
  is_Some (utf8_encode (try_decode data).1).
Proof. apply utf8_encode_scalars, try_decode_scalars. Qed.

Lemma decode_and_write_open (data : list byte) (s : State) :
  writes_left (sink s) <> Some O ->
  exists bs,
    utf8_encode (try_decode data).1 = Some bs
    /\ decode_and_write data s
       = (Some (try_decode data).2,
          {| sink := {| written := written (sink s) ++ bs;
                        writes_left := Nat.pred <$> writes_left (sink s) |};
             summary := summary s |}).
Proof.
  intros Hleft. destruct (try_decode_encodes data) as [bs Hbs].
  exists bs. split; [assumption|].
  unfold decode_and_write. destruct (try_decode data) as [txt enc].
  cbn [fst snd] in *. unfold bind, of_option. rewrite Hbs. cbn [ret].
  unfold write. destruct (writes_left (sink s)) as [[|n]|]; [done|..];
    reflexivity.
Qed.

(** X5: [txt.encode("utf-8")] never raises on a text [try_decode]
    returned, so [decode_and_write] raises only when the write does; and
    the bytes it writes are the bytes it was given exactly when those
    are well-formed UTF-8. *)
Theorem rewrites_all_but_valid_utf8 (data : list byte) (s : State) :
  ((decode_and_write data s).1 = None <-> writes_left (sink s) = Some O)
  /\ (writes_left (sink s) <> Some O ->
      (written (sink (decode_and_write data s).2)
       = written (sink s) ++ data
       <-> valid_utf8 data)).
Proof.
  split.
  - split.
    + intros Hnone.
      destruct (decide (writes_left (sink s) = Some O)) as [|Hleft];
        [assumption|].
      destruct (decode_and_write_open data s Hleft) as (bs & _ & Heq).
      rewrite Heq in Hnone. discriminate.
    + intros Hleft. destruct (try_decode_encodes data) as [bs Hbs].
      unfold decode_and_write. destruct (try_decode data) as [txt enc].
      cbn [fst] in Hbs. unfold bind, of_option. rewrite Hbs. cbn [ret].
      unfold write. now rewrite Hleft.
  - intros Hleft.
    destruct (decode_and_write_open data s Hleft) as (bs & Hbs & Heq).
    rewrite Heq. cbn [snd sink written]. split.
    + intros Happ. apply app_inv_head in Happ. subst bs.
      eexists. apply utf8_round_trip. eassumption.
    + intros [t Ht]. f_equal.
      rewrite (try_decode_utf8 data t Ht) in Hbs. cbn [fst] in Hbs.
      rewrite (utf8_decode_strict_encode data t Ht) in Hbs. congruence.
Qed.

(** *** Files that are passed over *)

Lemma sink_only_ret {A} (x : A) : sink_only (ret x).
Proof. intros s s' H. now split. Qed.

Lemma sink_only_raise {A} : sink_only (@raise A).
Proof. intros s s' H. now split. Qed.

Lemma sink_only_of_option {A} (x : option A) : sink_only (of_option x).
Proof. destruct x; [apply sink_only_ret|apply sink_only_raise]. Qed.

Lemma sink_only_bind {A B} (m : M A) (k : A -> M B) :
  sink_only m -> (forall x, sink_only (k x)) -> sink_only (bind m k).
Proof.
  intros Hm Hk s s' Hs. unfold bind. destruct (Hm s s' Hs) as [H1 H2].
  destruct (m s) as [[x|] s1], (m s') as [[x'|] s1']; cbn in *;
    try discriminate; [|now split].
  inversion H1; subst x'. now apply Hk.
Qed.

Lemma sink_only_update (g : Summary -> Summary) :
  sink_only (update_summary g).
Proof. intros s s' H. now split. Qed.

Lemma sink_only_write (bs : list byte) : sink_only (write bs).
Proof.
  intros s s' H. unfold write. rewrite <- H.
  destruct (writes_left (sink s)) as [[|n]|]; cbn; now split.
Qed.

Lemma sink_only_decode_and_write (data : list byte) :
  sink_only (decode_and_write data).
Proof.
  unfold decode_and_write. destruct (try_decode data) as [txt enc].
  apply sink_only_bind; [apply sink_only_of_option|]. intros bs.
  apply sink_only_bind; [apply sink_only_write|]. intros _.
  apply sink_only_ret.
Qed.

Lemma sink_only_stream_loop fuel f idx handle enc :
  sink_only (stream_loop fuel f idx handle enc).
Proof.
  revert idx handle enc.
  induction fuel as [|fuel IH]; intros idx handle enc; cbn [stream_loop].
  - apply sink_only_raise.
  - apply sink_only_bind.
    + unfold read_chunk. case_decide;
        [apply sink_only_raise|apply sink_only_ret].
    + intros [|b chunk]; [apply sink_only_ret|].
      apply sink_only_bind; [apply sink_only_decode_and_write|].
      intros enc'. apply IH.
Qed.

Lemma sink_only_write_frame a f sample : sink_only (write_frame a f sample).
Proof.
  unfold write_frame.
  apply sink_only_bind; [apply sink_only_write|]. intros _.
  apply sink_only_bind; [apply sink_only_of_option|]. intros handle.
  apply sink_only_bind.
  { destruct sample; [apply sink_only_ret|apply sink_only_decode_and_write]. }
  intros enc. apply sink_only_bind; [apply sink_only_stream_loop|].
  intros enc'. apply sink_only_bind; [|intros _; apply sink_only_update].
  destruct (encoding_report a); [apply sink_only_update|apply sink_only_ret].
Qed.

Lemma sink_only_file_body a f : sink_only (file_body a f).
Proof.
  unfold file_body. destruct (too_large a f); [apply sink_only_update|].
  destruct (sample_open f) as [contents|]; [|apply sink_only_update].
  destruct (Classifier.looks_binary_bytes (take SAMPLE_SIZE contents));
    [apply sink_only_update|apply sink_only_write_frame].
Qed.

Lemma process_file_sink a f s s' :
  sink s = sink s' -> sink (process_file a f s) = sink (process_file a f s').
Proof.
  intros H. rewrite !sink_process_file. now apply sink_only_file_body.
Qed.

Lemma passed_over_sink a f s :
  accepted a f = false -> sink (process_file a f s) = sink s.
Proof.
  unfold accepted, within_size. intros H.
  rewrite sink_process_file. unfold file_body.
  destruct (too_large a f); [reflexivity|].
  destruct (sample_open f) as [contents|]; [|reflexivity].
  destruct (Classifier.looks_binary_bytes (take SAMPLE_SIZE contents));
    [reflexivity|discriminate].
Qed.

Lemma process_each_sink a files s s' :
  sink s = sink s' ->
  sink (foldl (fun s f => process_file a f s) s files)
  = sink (foldl (fun s f => process_file a f s) s'
            (List.filter (accepted a) files)).
Proof.
  revert s s'. induction files as [|f files IH]; intros s s' H;
    cbn [foldl List.filter]; [assumption|].
  destruct (accepted a f) eqn:Hacc; cbn [foldl]; apply IH.
  - now apply process_file_sink.
  - now rewrite passed_over_sink.
Qed.

(** X7: what a run leaves in the output does not depend on the files it
    passes over.  The sink after the run over [files] is the sink after
    the run over the files that are within the size limit, can be opened
    and do not look binary: a file that is too large, cannot be read or
    looks binary writes nothing, not even its header. *)
Theorem passed_over_files_leave_no_trace (a : Args) (files : list File)
    (s : State) :
  sink (process_files_sequential a files s)
  = sink (process_files_sequential a (List.filter (accepted a) files) s).
Proof.
  unfold process_files_sequential. apply process_each_sink.
  destruct (count_total_effect files s) as (-> & _).
  now destruct (count_total_effect (List.filter (accepted a) files) s)
    as (-> & _).
Qed.

(** *** The counters *)

Lemma process_file_counters a f s :
  skipped_large (summary (process_file a f s))
  = skipped_large (summary s) + (if too_large a f then 1 else 0)
  /\ skipped_binary (summary (process_file a f s))
     = skipped_binary (summary s) + (if binary_like a f then 1 else 0)
  /\ processed (summary (process_file a f s))
     + errors (summary (process_file a f s))
     = processed (summary s) + errors (summary s)
       + (if within_size a f && negb (binary_like a f) then 1 else 0)
  /\ processed (summary s) <= processed (summary (process_file a f s))
  /\ errors (summary s) <= errors (summary (process_file a f s)).
Proof.
  unfold process_file, binary_like, within_size, file_body.
  destruct (too_large a f); [cbn; lia|].
  destruct (sample_open f) as [contents|]; [|cbn; lia].
  destruct (Classifier.looks_binary_bytes (take SAMPLE_SIZE contents));
    [cbn; lia|].
  destruct (write_frame_effect a f (take SAMPLE_SIZE contents) s)
    as (_ & Hnone & Hsome & _).
  destruct (write_frame a f (take SAMPLE_SIZE contents) s) as [[[]|] s1];
    cbn [fst snd] in *.
  - destruct Hsome as [enc ->]; [done|].
    destruct (encoding_report a); cbn; lia.
  - rewrite Hnone by reflexivity. cbn. lia.
Qed.

Lemma count_total_summary (files : list File) s :
  let s' := foldl (fun s _ => {| sink := sink s;
                                 summary := incr_total (summary s) |})
                  s files in
  skipped_large (summary s') = skipped_large (summary s)
  /\ skipped_binary (summary s') = skipped_binary (summary s)
  /\ processed (summary s') = processed (summary s)
  /\ errors (summary s') = errors (summary s)
  /\ encoding_examples (summary s') = encoding_examples (summary s).
Proof.
  revert s. induction files as [|f files IH]; intros s; cbn [foldl].
  - cbn. repeat split.
  - apply (IH {| sink := sink s; summary := incr_total (summary s) |}).
Qed.

(** X8: the counters of the summary count what they are named for.
    After a run, [skipped_large] has grown by the number of files over
    the size limit, [skipped_binary] by the number of files within the
    limit whose sample could be read and looks binary, and [processed]
    and [errors] together by the number of all the others. *)
Theorem counters_count (a : Args) (files : list File) (s : State) :
  let s' := process_files_sequential a files s in
  skipped_large (summary s')
  = skipped_large (summary s)
    + Z.of_nat (length (List.filter (too_large a) files))
  /\ skipped_binary (summary s')
     = skipped_binary (summary s)
       + Z.of_nat (length (List.filter (binary_like a) files))
  /\ processed (summary s') + errors (summary s')
     = processed (summary s) + errors (summary s)
       + Z.of_nat (length (List.filter
           (fun f => within_size a f && negb (binary_like a f)) files))
  /\ processed (summary s) <= processed (summary s')
  /\ errors (summary s) <= errors (summary s').
Proof.
  cbv zeta. unfold process_files_sequential.
  destruct (count_total_summary files s) as (Hl & Hb & Hp & He & _).
  cbv zeta in Hl, Hb, Hp, He. rewrite <- Hl, <- Hb, <- Hp, <- He.
  generalize (foldl (fun s _ => {| sink := sink s;
                                   summary := incr_total (summary s) |})
                    s files).
  clear. induction files as [|f files IH]; intros s;
    cbn [foldl List.filter]; [cbn; lia|].
  destruct (IH (process_file a f s)) as (Il & Ib & Ip & Ipm & Iem).
  destruct (process_file_counters a f s) as (Fl & Fb & Fp & Fpm & Fem).
  revert Il Ib Ip Ipm Iem Fl Fb Fp Fpm Fem.
  destruct (too_large a f), (binary_like a f), (within_size a f);
    cbn [length andb negb]; lia.
Qed.

(** *** Whole files *)

Lemma chunk_nonempty (handle : list byte) :
  handle <> [] -> take CHUNK_SIZE handle <> [].
Proof.
  destruct handle as [|b handle]; [done|]. intros _.
  assert (H : CHUNK_SIZE = S (Nat.pred CHUNK_SIZE))
    by (unfold CHUNK_SIZE; lia).
  rewrite H. discriminate.
Qed.

Lemma sample_nonempty (data : list byte) :
  data <> [] -> take SAMPLE_SIZE data <> [].
Proof.
  destruct data as [|b data]; [done|]. intros _.
  assert (H : SAMPLE_SIZE = S (Nat.pred SAMPLE_SIZE))
    by (unfold SAMPLE_SIZE; lia).
  rewrite H. discriminate.
Qed.

Lemma empty_frame (a : Args) (f : File) (s : State) :
  stream_open f = Some [] -> read_fault f <> Some 0%nat ->
  writes_left (sink s) <> Some 0%nat ->
  write_frame a f [] s
  = (Some tt,
     {| sink := {| written := written (sink s) ++ header f;
                   writes_left := Nat.pred <$> writes_left (sink s) |};
        summary :=
          incr_processed
            (if encoding_report a
             then record_encoding (path_posix f) "unknown" (summary s)
             else summary s) |}).
Proof.
  intros Hstream Hfault Hleft.
  destruct (write_header_effect (header f) s Hleft)
    as (s1 & Hw & Hwr & Hwl & Hsum).
  unfold write_frame.
  unfold bind at 1. rewrite Hw.
  unfold bind at 1. rewrite Hstream. cbn [of_option ret].
  unfold bind at 1. unfold bind at 1. cbn [length stream_loop].
  unfold bind at 1. unfold read_chunk.
  rewrite decide_False by assumption. rewrite take_nil. cbn [ret].
  destruct s1 as [[w l] sm]. cbn in Hwr, Hwl, Hsum. subst w l sm.
  now destruct (encoding_report a).
Qed.

(** X9: an empty file is not binary: it gets its header and nothing
    else, it is counted as processed, and the encoding reported for it
    is ["unknown"]. *)
Theorem empty_file_gets_header_only (a : Args) (f : File) (s : State) :
  too_large a f = false ->
  sample_open f = Some [] -> stream_open f = Some [] ->
  read_fault f <> Some 0%nat ->
  writes_left (sink s) <> Some 0%nat ->
  written (sink (process_file a f s)) = written (sink s) ++ header f
  /\ summary (process_file a f s)
     = incr_processed
         (if encoding_report a
          then record_encoding (path_posix f) "unknown" (summary s)
          else summary s).
Proof.
  intros Hsize Hopen Hstream Hfault Hleft.
  unfold process_file, file_body. rewrite Hsize, Hopen.
  rewrite take_nil. cbn [Classifier.looks_binary_bytes].
  rewrite empty_frame by assumption. now split.
Qed.

Lemma empty_file_gets_header_only_witness :
  let f := SampleFiles.readable [x65] "e" [] in
  written (sink (process_file SampleFiles.args f SampleFiles.start))
  = written (sink SampleFiles.start) ++ header f
  /\ summary (process_file SampleFiles.args f SampleFiles.start)
     = incr_processed
         (if encoding_report SampleFiles.args
          then record_encoding (path_posix f) "unknown"
                 (summary SampleFiles.start)
          else summary SampleFiles.start).
Proof.
  apply (empty_file_gets_header_only SampleFiles.args
           (SampleFiles.readable [x65] "e" []) SampleFiles.start);
    (reflexivity || discriminate).
Defined.

Lemma ascii_decodes (bs : list byte) :
  Forall (fun b => byte_val b < 0x80) bs ->
  utf8_decode strict bs = Some (byte_val <$> bs).
Proof.
  induction 1 as [|b bs Hb _ IH]; [reflexivity|].
  cbn [utf8_decode]. cbv zeta.
  destruct (Z.ltb_spec (byte_val b) 0x80) as [_|Hge]; [|lia].
  now rewrite IH.
Qed.

Lemma ascii_encodes (bs : list byte) :
  Forall (fun b => byte_val b < 0x80) bs ->
  utf8_encode (byte_val <$> bs) = Some bs.
Proof. intros H. now apply utf8_decode_strict_encode, ascii_decodes. Qed.

Lemma stream_loop_ascii (f : File) (fuel idx : nat) (handle : list byte)
    (enc : string) (s : State) :
  read_fault f = None ->
  Forall (fun b => byte_val b < 0x80) handle ->
  (length handle < fuel)%nat ->
  writes_left (sink s) = None ->
  stream_loop fuel f idx handle enc s
  = (Some (match handle with [] => enc | _ => "utf-8" end),
     {| sink := {| written := written (sink s) ++ handle;
                   writes_left := None |};
        summary := summary s |}).
Proof.
  intros Hfault. revert idx handle enc s.
  induction fuel as [|fuel IH]; intros idx handle enc s Hascii Hlen Hleft;
    [lia|].
  cbn [stream_loop]. unfold bind at 1. unfold read_chunk.
  rewrite Hfault. rewrite decide_False by discriminate. cbn [ret].
  destruct handle as [|b handle'] eqn:Eh.
  { rewrite take_nil. cbn [ret]. rewrite app_nil_r.
    destruct s as [[w l] sm]. cbn in *. now subst l. }
  rewrite <- Eh in *.
  assert (Hne : handle <> []) by (subst handle; discriminate).
  pose proof (chunk_nonempty handle Hne) as Hchunk.
  destruct (take CHUNK_SIZE handle) as [|c chunk] eqn:Ec; [done|].
  rewrite <- Ec in *.
  assert (Hca : Forall (fun b => byte_val b < 0x80) (take CHUNK_SIZE handle))
    by now apply Forall_take.
  unfold bind at 1.
  rewrite (decode_and_write_utf8 _ _ s (ascii_encodes _ Hca) Hleft).
  rewrite IH.
  - cbn [sink written summary]. rewrite <- app_assoc, take_drop.
    rewrite Eh. now destruct (drop CHUNK_SIZE (b :: handle')).
  - now apply Forall_drop.
  - rewrite length_drop.
    assert (0 < length handle)%nat
      by (destruct handle; [done|cbn; lia]).
    assert (0 < CHUNK_SIZE)%nat by (unfold CHUNK_SIZE; lia). lia.
  - reflexivity.
Qed.

Lemma ascii_frame (a : Args) (f : File) (s : State)
    (sample data : list byte) :
  stream_open f = Some data -> read_fault f = None ->
  sample <> [] -> data <> [] ->
  Forall (fun b => byte_val b < 0x80) sample ->
  Forall (fun b => byte_val b < 0x80) data ->
  writes_left (sink s) = None ->
  write_frame a f sample s
  = (Some tt,
     {| sink := {| written := written (sink s) ++ header f ++ sample ++ data;
                   writes_left := None |};
        summary :=
          incr_processed
            (if encoding_report a
             then record_encoding (path_posix f) "utf-8" (summary s)
             else summary s) |}).
Proof.
  intros Hstream Hfault Hns Hnd Hsa Hda Hleft.
  unfold write_frame.
  unfold bind at 1. unfold write at 1. rewrite Hleft.
  cbn [fmap option_fmap option_map].
  unfold bind at 1. rewrite Hstream. cbn [of_option ret].
  unfold bind at 1.
  replace (match sample with
           | [] => ret "unknown"
           | _ => decode_and_write sample
           end)
    with (decode_and_write sample) by now destruct sample.
  rewrite (decode_and_write_utf8 _ _ _ (ascii_encodes _ Hsa))
    by reflexivity.
  cbn [sink written summary]. unfold bind at 1.
  rewrite stream_loop_ascii; [|assumption|assumption|lia|reflexivity].
  cbn [sink written summary]. unfold bind.
  destruct data as [|b data']; [done|].
  destruct (encoding_report a); cbn; now repeat rewrite <- app_assoc.
Qed.

(** X10: a non-empty ASCII file of any length that is read without a
    fault comes out as its header, its first 8192 bytes, and then the
    whole file from its first byte: every chunk of 65536 bytes is
    well-formed UTF-8 and is written as it is.  The file is counted as
    processed and reported as ["utf-8"]. *)
Theorem ascii_file_follows_its_sample (a : Args) (f : File) (s : State)
    (data : list byte) :
  too_large a f = false ->
  sample_open f = Some data -> stream_open f = Some data ->
  read_fault f = None ->
  data <> [] -> Forall (fun b => byte_val b < 0x80) data ->
  Classifier.looks_binary_bytes (take SAMPLE_SIZE data) = false ->
  writes_left (sink s) = None ->
  written (sink (process_file a f s))
  = written (sink s) ++ header f ++ take SAMPLE_SIZE data ++ data
  /\ summary (process_file a f s)
     = incr_processed
         (if encoding_report a
          then record_encoding (path_posix f) "utf-8" (summary s)
          else summary s).
Proof.
  intros Hsize Hopen Hstream Hfault Hne Hascii Hbin Hleft.
  unfold process_file.
  rewrite (file_body_frame a f s data Hsize Hopen Hbin).
  rewrite (ascii_frame a f s (take SAMPLE_SIZE data) data);
    try assumption; [now split|now apply sample_nonempty|].
  now apply Forall_take.
Qed.

Lemma ascii_file_follows_its_sample_witness :
  written (sink (process_file SampleFiles.args SampleFiles.a_txt
                   SampleFiles.start))
  = written (sink SampleFiles.start) ++ header SampleFiles.a_txt
    ++ take SAMPLE_SIZE SampleFiles.hello ++ SampleFiles.hello
  /\ summary (process_file SampleFiles.args SampleFiles.a_txt
                SampleFiles.start)
     = incr_processed
         (if encoding_report SampleFiles.args
          then record_encoding (path_posix SampleFiles.a_txt) "utf-8"
                 (summary SampleFiles.start)
          else summary SampleFiles.start).
Proof.
  apply (ascii_file_follows_its_sample SampleFiles.args SampleFiles.a_txt
           SampleFiles.start SampleFiles.hello);
    try reflexivity; try discriminate.
  - repeat constructor.
Defined.

(** *** The output as a whole *)

Lemma utf8_encode_app (t1 t2 : text) (b1 b2 : list byte) :
  utf8_encode t1 = Some b1 -> utf8_encode t2 = Some b2 ->
  utf8_encode (t1 ++ t2) = Some (b1 ++ b2).
Proof.
  revert b1. induction t1 as [|c t1 IH]; intros b1 H1 H2; cbn in *.
  - now inversion H1.
  - destruct (utf8_encode_char c) as [bc|]; [|discriminate].
    destruct (utf8_encode t1) as [bt|]; [|discriminate].
    inversion H1; subst b1. rewrite (IH bt eq_refl H2).
    now rewrite app_assoc.
Qed.

Lemma valid_utf8_app (b1 b2 : list byte) :
  valid_utf8 b1 -> valid_utf8 b2 -> valid_utf8 (b1 ++ b2).
Proof.
  intros [t1 H1] [t2 H2]. exists (t1 ++ t2).
  apply utf8_round_trip, utf8_encode_app;
    now apply utf8_decode_strict_encode.
Qed.

Lemma valid_utf8_header (f : File) :
  valid_utf8 (path_str f) -> valid_utf8 (header f).
Proof.
  intros H. unfold header.
  apply valid_utf8_app; [now eexists|].
  apply valid_utf8_app; [assumption|now eexists].
Qed.

Lemma keeps_valid_ret {A} (x : A) : keeps_valid (ret x).
Proof. intros s H. exact H. Qed.

Lemma keeps_valid_raise {A} : keeps_valid (@raise A).
Proof. intros s H. exact H. Qed.

Lemma keeps_valid_of_option {A} (x : option A) : keeps_valid (of_option x).
Proof. destruct x; [apply keeps_valid_ret|apply keeps_valid_raise]. Qed.

Lemma keeps_valid_update (g : Summary -> Summary) :
  keeps_valid (update_summary g).
Proof. intros s H. exact H. Qed.

Lemma keeps_valid_bind {A B} (m : M A) (k : A -> M B) :
  keeps_valid m -> (forall x, keeps_valid (k x)) -> keeps_valid (bind m k).
Proof.
  intros Hm Hk s Hs. unfold bind. specialize (Hm s Hs).
  destruct (m s) as [[x|] s1]; cbn in *; [now apply Hk|assumption].
Qed.

Lemma keeps_valid_write (bs : list byte) :
  valid_utf8 bs -> keeps_valid (write bs).
Proof.
  intros Hbs s Hs. unfold write.
  destruct (writes_left (sink s)) as [[|n]|]; cbn;
    [assumption|now apply valid_utf8_app..].
Qed.

Lemma keeps_valid_decode_and_write (data : list byte) :
  keeps_valid (decode_and_write data).
Proof.
  unfold decode_and_write. destruct (try_decode data) as [txt enc].
  intros s Hs. unfold bind at 1. unfold of_option.
  destruct (utf8_encode txt) as [bs|] eqn:Hbs; cbn [ret raise];
    [|assumption].
  apply (keeps_valid_bind (write bs) (fun _ => ret enc));
    [|intros _; apply keeps_valid_ret|assumption].
  apply keeps_valid_write. exists txt. now apply utf8_round_trip.
Qed.

Lemma keeps_valid_stream_loop fuel f idx handle enc :
  keeps_valid (stream_loop fuel f idx handle enc).
Proof.
  revert idx handle enc.
  induction fuel as [|fuel IH]; intros idx handle enc; cbn [stream_loop].
  - apply keeps_valid_raise.
  - apply keeps_valid_bind.
    + unfold read_chunk. case_decide;
        [apply keeps_valid_raise|apply keeps_valid_ret].
    + intros [|b chunk]; [apply keeps_valid_ret|].
      apply keeps_valid_bind; [apply keeps_valid_decode_and_write|].
      intros enc'. apply IH.
Qed.

Lemma keeps_valid_file_body a f :
  valid_utf8 (path_str f) -> keeps_valid (file_body a f).
Proof.
  intros Hpath. unfold file_body.
  destruct (too_large a f); [apply keeps_valid_update|].
  destruct (sample_open f) as [contents|]; [|apply keeps_valid_update].
  destruct (Classifier.looks_binary_bytes (take SAMPLE_SIZE contents));
    [apply keeps_valid_update|].
  unfold write_frame.
  apply keeps_valid_bind;
    [now apply keeps_valid_write, valid_utf8_header|]. intros _.
  apply keeps_valid_bind; [apply keeps_valid_of_option|]. intros handle.
  apply keeps_valid_bind.
  { destruct (take SAMPLE_SIZE contents);
      [apply keeps_valid_ret|apply keeps_valid_decode_and_write]. }
  intros enc. apply keeps_valid_bind; [apply keeps_valid_stream_loop|].
  intros enc'. apply keeps_valid_bind; [|intros _; apply keeps_valid_update].
  destruct (encoding_report a); [apply keeps_valid_update|apply keeps_valid_ret].
Qed.

(** X11: the output is well-formed UTF-8 whatever the input files hold.
    When the sink holds well-formed UTF-8 and the names of the files
    are written as well-formed UTF-8 (which [errors="replace"] ensures),
    the sink holds well-formed UTF-8 after the run, also when files
    raise half way. *)
Theorem output_stays_valid_utf8 (a : Args) (files : list File) (s : State) :
  valid_utf8 (written (sink s)) ->
  Forall (fun f => valid_utf8 (path_str f)) files ->
  valid_utf8 (written (sink (process_files_sequential a files s))).
Proof.
  intros Hs Hfiles. unfold process_files_sequential.
  destruct (count_total_effect files s) as (Hsink & _).
  revert Hsink.
  generalize (foldl (fun s _ => {| sink := sink s;
                                   summary := incr_total (summary s) |})
                    s files).
  intros s0 Hsink. rewrite <- Hsink in Hs. clear Hsink s.
  revert s0 Hs. induction Hfiles as [|f files Hf _ IH]; intros s Hs;
    cbn [foldl]; [assumption|].
  apply IH. rewrite sink_process_file. now apply keeps_valid_file_body.
Qed.

Lemma output_stays_valid_utf8_witness :
  valid_utf8
    (written (sink (process_files_sequential SampleFiles.args
                      [SampleFiles.ee_file; SampleFiles.a_faulty]
                      SampleFiles.start))).
Proof.
  apply (output_stays_valid_utf8 SampleFiles.args
           [SampleFiles.ee_file; SampleFiles.a_faulty] SampleFiles.start).
  - now eexists.
  - repeat constructor; now eexists.
Defined.

(** *** The encoding report *)

Lemma decode_and_write_label (data : list byte) (s : State) (enc : string) :
  (decode_and_write data s).1 = Some enc -> enc ∈ REPORTED.
Proof.
  unfold decode_and_write.
  pose proof (try_decode_labels data) as Hl.
  destruct (try_decode data) as [txt lab]. cbn [snd] in Hl.
  unfold bind, of_option.
  destruct (utf8_encode txt) as [bs|]; cbn [ret raise]; [|discriminate].
  destruct (write bs s) as [[[]|] s1]; cbn; [|discriminate].
  intros H. inversion H; subst enc. unfold REPORTED. set_solver.
Qed.

Lemma stream_loop_label fuel f idx handle enc0 s enc :
  enc0 ∈ REPORTED ->
  (stream_loop fuel f idx handle enc0 s).1 = Some enc -> enc ∈ REPORTED.
Proof.
  revert idx handle enc0 s.
  induction fuel as [|fuel IH]; intros idx handle enc0 s H0;
    cbn [stream_loop]; [discriminate|].
  unfold bind at 1. unfold read_chunk.
  case_decide; cbn [ret raise]; [discriminate|].
  destruct (take CHUNK_SIZE handle) as [|b chunk]; cbn [ret].
  { intros Heq. now inversion Heq; subst enc. }
  unfold bind at 1.
  destruct (decode_and_write (b :: chunk) s) as [[enc1|] s1] eqn:Hd;
    [|discriminate].
  apply IH. apply (decode_and_write_label (b :: chunk) s). now rewrite Hd.
Qed.

Lemma write_frame_report a f sample s r :
  write_frame a f sample s = r ->
  encoding_examples (summary r.2) = encoding_examples (summary s)
  \/ (encoding_report a = true
      /\ exists enc, enc ∈ REPORTED
         /\ encoding_examples (summary r.2)
            = <[path_posix f := enc]> (encoding_examples (summary s))).
Proof.
  unfold write_frame. unfold bind at 1.
  destruct (appends_write (header f) s) as [_ Hs1].
  destruct (write (header f) s) as [[[]|] s1]; cbn [fst snd] in *;
    [|intros <-; left; cbn; congruence].
  unfold bind at 1.
  destruct (stream_open f) as [handle|]; cbn [of_option ret raise];
    [|intros <-; left; cbn; congruence].
  unfold bind at 1.
  destruct (appends_sample sample s1) as [_ Hs2].
  pose proof (fun enc => decode_and_write_label sample s1 enc) as Hlab.
  assert (Hfirst : forall enc,
            (match sample with
             | [] => ret "unknown"
             | _ => decode_and_write sample
             end s1).1 = Some enc -> enc ∈ REPORTED).
  { intros enc. destruct sample; [|apply Hlab].
    cbn. intros Heq. inversion Heq. unfold REPORTED. set_solver. }
  destruct (match sample with
            | [] => ret "unknown"
            | _ => decode_and_write sample
            end s1) as [[enc|] s2]; cbn [fst snd] in *;
    [|intros <-; left; cbn; congruence].
  specialize (Hfirst enc eq_refl).
  unfold bind at 1.
  destruct (appends_stream_loop (S (length handle)) f 0 handle enc s2)
    as [_ Hs3].
  pose proof (stream_loop_label (S (length handle)) f 0 handle enc s2)
    as Hloop.
  destruct (stream_loop (S (length handle)) f 0 handle enc s2)
    as [[enc'|] s3]; cbn [fst snd] in *;
    [|intros <-; left; cbn; congruence].
  specialize (Hloop enc' Hfirst eq_refl).
  destruct (encoding_report a); cbn; intros <-; cbn.
  - right. split; [reflexivity|]. exists enc'. split; [assumption|].
    congruence.
  - left. congruence.
Qed.

Lemma process_file_report a f s :
  encoding_examples (summary (process_file a f s))
  = encoding_examples (summary s)
  \/ (encoding_report a = true
      /\ exists enc, enc ∈ REPORTED
         /\ encoding_examples (summary (process_file a f s))
            = <[path_posix f := enc]> (encoding_examples (summary s))).
Proof.
  assert (Hskip : forall s1 : State,
            encoding_examples (incr_errors (summary s1))
            = encoding_examples (summary s1)) by reflexivity.
  unfold process_file, file_body.
  destruct (too_large a f); [now left|].
  destruct (sample_open f) as [contents|]; [|now left].
  destruct (Classifier.looks_binary_bytes (take SAMPLE_SIZE contents));
    [now left|].
  pose proof (write_frame_report a f (take SAMPLE_SIZE contents) s _ eq_refl)
    as Hr.
  destruct (write_frame a f (take SAMPLE_SIZE contents) s) as [[[]|] s1];
    cbn [fst snd summary] in *; [assumption|].
  now rewrite Hskip.
Qed.

(** X12: the encoding report has entries for files of the run only.
    An entry found in [encoding_examples] after a run was there before,
    or the report is switched on, the entry is under the path of one of
    the files, and its label is ["unknown"] or one of ["utf-8"],
    ["utf-16"], ["utf-16-le"], ["utf-16-be"] and ["latin-1"]. *)
Theorem report_holds_files_of_the_run (a : Args) (files : list File)
    (s : State) (p enc : string) :
  encoding_examples (summary (process_files_sequential a files s)) !! p
  = Some enc ->
  encoding_examples (summary s) !! p = Some enc
  \/ (encoding_report a = true
      /\ (exists f, f ∈ files /\ path_posix f = p)
      /\ enc ∈ REPORTED).
Proof.
  unfold process_files_sequential.
  destruct (count_total_summary files s) as (_ & _ & _ & _ & He).
  cbv zeta in He. rewrite <- He. clear He.
  generalize (foldl (fun s _ => {| sink := sink s;
                                   summary := incr_total (summary s) |})
                    s files).
  clear s. induction files as [|f files IH]; intros s; cbn [foldl];
    [now left|].
  intros H. destruct (IH _ H) as [Hin|(Hrep & (g & Hg & Hp) & Henc)].
  - destruct (process_file_report a f s)
      as [Heq|(Hrep & enc1 & Henc1 & Heq)]; rewrite Heq in Hin;
      [now left|].
    destruct (decide (path_posix f = p)) as [Hp|Hp].
    + rewrite Hp, lookup_insert_eq in Hin. inversion Hin; subst enc1.
      right. split; [assumption|]. split; [|assumption].
      exists f. split; [left|assumption].
    + rewrite lookup_insert_ne in Hin by assumption. now left.
  - right. split; [assumption|]. split; [|assumption].
    exists g. split; [now right|assumption].
Qed.

Lemma report_holds_files_of_the_run_witness :
  encoding_examples (summary SampleFiles.start) !! "a.txt" = Some "utf-8"
  \/ (encoding_report {| max_size_bytes := None; encoding_report := true |}
      = true
      /\ (exists f, f ∈ [SampleFiles.a_txt] /\ path_posix f = "a.txt")
      /\ "utf-8" ∈ REPORTED).
Proof.
  apply (report_holds_files_of_the_run
           {| max_size_bytes := None; encoding_report := true |}
           [SampleFiles.a_txt] SampleFiles.start "a.txt" "utf-8").
  vm_compute. reflexivity.
Defined.

(** *** UTF-16 and the binary check *)

Lemma low_unit_has_null (little : bool) (n : nat) (bs : list byte)
    (us : list Z) (u : Z) :
  utf16_units little bs = Some us -> u ∈ take n us -> u < 0x100 ->
  Classifier.has_null (take (2 * n) bs) = true.
Proof.
  revert bs us. induction n as [|n IH]; intros bs us Hus Hin Hu.
  { rewrite take_0 in Hin. inversion Hin. }
  destruct bs as [|b0 [|b1 rest]]; cbn [utf16_units] in Hus.
  - inversion Hus; subst us. rewrite take_nil in Hin. inversion Hin.
  - discriminate.
  - cbv zeta in Hus.
    destruct (utf16_units little rest) as [us'|] eqn:Hrest; [|discriminate].
    cbn in Hus. inversion Hus; subst us; clear Hus.
    replace (2 * S n)%nat with (S (S (2 * n))) by lia.
    cbn [take Classifier.has_null existsb].
    cbn [take] in Hin. apply elem_of_cons in Hin as [->|Hin].
    + pose proof (byte_val_range b0). pose proof (byte_val_range b1).
      destruct little.
      * assert (E1 : byte_val b1 = 0) by lia. rewrite E1.
        cbn. now rewrite orb_true_r.
      * assert (E0 : byte_val b0 = 0) by lia. rewrite E0. reflexivity.
    + fold (Classifier.has_null (take (2 * n) rest)).
      rewrite (IH rest us' Hrest Hin Hu). now rewrite !orb_true_r.
Qed.

Lemma utf16_units_length (little : bool) (bs : list byte) (us : list Z) :
  utf16_units little bs = Some us -> length bs = (2 * length us)%nat.
Proof.
  remember (length bs) as n eqn:Hn. revert bs us Hn.
  induction n as [n IH] using lt_wf_ind. intros bs us Hn Hus.
  destruct bs as [|b0 [|b1 rest]]; cbn [utf16_units] in Hus; subst n.
  - now inversion Hus.
  - discriminate.
  - cbv zeta in Hus.
    destruct (utf16_units little rest) as [us'|] eqn:Hrest; [|discriminate].
    cbn in Hus. inversion Hus; subst us. cbn [length].
    rewrite (IH (length rest)) with (bs := rest) (us := us');
      [lia|cbn; lia|reflexivity|assumption].
Qed.

(** X6: a file in UTF-16 with a character below U+0100 at its start is
    never collected.  When one of the 16-bit units of the first 1024
    bytes, read in either byte order, is below 0x100, one of those bytes
    is null: the file is counted as binary and nothing is written for
    it, although ["utf-16"], ["utf-16-le"] and ["utf-16-be"] are in the
    list of encodings. *)
Theorem utf16_low_unit_file_is_skipped (a : Args) (f : File) (s : State)
    (contents : list byte) (little : bool) (us : list Z) (u : Z) :
  too_large a f = false ->
  sample_open f = Some contents ->
  utf16_units little (take 1024 contents) = Some us ->
  u ∈ us -> u < 0x100 ->
  process_file a f s
  = {| sink := sink s; summary := incr_skipped_binary (summary s) |}.
Proof.
  intros Hsize Hopen Hus Hin Hu.
  assert (Hnull : Classifier.has_null (take 1024 contents) = true).
  { pose proof (low_unit_has_null little 512 (take 1024 contents) us u Hus)
      as Hn.
    rewrite take_take in Hn. replace (Nat.min (2 * 512) 1024) with 1024%nat in Hn
      by reflexivity.
    apply Hn; [|assumption]. rewrite take_ge; [assumption|].
    pose proof (utf16_units_length little _ us Hus) as Hl.
    rewrite length_take in Hl. lia. }
  assert (Hbin : Classifier.looks_binary_bytes (take SAMPLE_SIZE contents)
                 = true).
  { unfold Classifier.looks_binary_bytes.
    destruct (take SAMPLE_SIZE contents) as [|b sample] eqn:Es.
    - assert (contents = []).
      { destruct contents; [done|].
        assert (E : SAMPLE_SIZE = S (Nat.pred SAMPLE_SIZE))
          by (unfold SAMPLE_SIZE; lia).
        rewrite E in Es. discriminate. }
      subst contents. discriminate.
    - rewrite <- Es. cbv zeta. rewrite take_take.
      replace (Nat.min 1024 SAMPLE_SIZE) with 1024%nat
        by (unfold SAMPLE_SIZE; lia).
      now rewrite Hnull. }
  unfold process_file, file_body. now rewrite Hsize, Hopen, Hbin.
Qed.

Lemma utf16_low_unit_file_is_skipped_witness :
  process_file SampleFiles.args SampleFiles.hi_file SampleFiles.start
  = {| sink := sink SampleFiles.start;
       summary := incr_skipped_binary (summary SampleFiles.start) |}.
Proof.
  apply (utf16_low_unit_file_is_skipped SampleFiles.args SampleFiles.hi_file
           SampleFiles.start SampleFiles.hi_utf16le true [0x68; 0x69] 0x68).
  - reflexivity.
  - reflexivity.
  - reflexivity.
  - left.
  - reflexivity.
Defined.

End IngestionMore.

Module DiscoveryMore.
Import Invariants Revisit DiscoveryFacts.

Section Walks.
Context (fs : FS) (o : Options).

(** *** A depth limit ends the traversal *)

Lemma walk_frames_end (m : Z) :
  max_depth o = Some m ->
  forall (r : nat) (frames : list frame),
    Forall (fun f => (room m f <= r)%nat) frames ->
    forall (rest : list frame) (ys : list path) (seen : gset key),
    exists (n : nat) (ys' : list path) (seen' : gset key),
      forall fuel,
        walk (n + fuel) fs o (ys, seen, frames ++ rest)
        = walk fuel fs o (ys', seen', rest).
Proof.
  intros Hm r. induction r as [r IHr] using lt_wf_ind.
  intros frames. induction frames as [|[d k] fl IHf];
    intros Hroom rest ys seen.
  { exists 0%nat, ys, seen. reflexivity. }
  apply Forall_cons in Hroom as [Hdk Hfl].
  destruct (negb (include_hidden o) && is_hidden fs d) eqn:Hh.
  { destruct (IHf Hfl rest ys seen) as (n & ys' & seen' & Hn).
    exists (S n), ys', seen'. intros fuel. cbn [Nat.add app walk].
    now rewrite Hh. }
  destruct (scandir fs d) as [names|] eqn:Hscan.
  2: { destruct (IHf Hfl rest ys seen) as (n & ys' & seen' & Hn).
       exists (S n), ys', seen'. intros fuel. cbn [Nat.add app walk].
       now rewrite Hh, Hscan. }
  destruct (scan_entries_adds fs o d k names (ys, seen, fl ++ rest))
    as (y1 & fr & Hy & Hstack & _ & _ & _ & Hdepth & _).
  destruct (scan_entries fs o d k names (ys, seen, fl ++ rest))
    as [[ys1 seen1] stack1] eqn:Hst.
  cbn [fst snd] in Hy, Hstack.
  assert (Hchildren : exists n1 ys2 seen2, forall fuel,
            walk (n1 + fuel) fs o (ys1, seen1, stack1)
            = walk fuel fs o (ys2, seen2, fl ++ rest)).
  { subst stack1. destruct fr as [|p fr'] eqn:Hfr.
    - exists 0%nat, ys1, seen1. reflexivity.
    - rewrite <- Hfr in *.
      assert (Hk : k + 1 <= m)
        by (apply Hdepth; [subst fr; discriminate|assumption]).
      unfold room in Hdk. cbn [snd] in Hdk.
      apply (IHr (Nat.pred r)); [lia|].
      apply Forall_fmap, Forall_forall. intros q _.
      unfold room. cbn. lia. }
  destruct Hchildren as (n1 & ys2 & seen2 & Hn1).
  destruct (IHf Hfl rest ys2 seen2) as (n2 & ys' & seen' & Hn2).
  exists (S (n1 + n2)), ys', seen'. intros fuel.
  cbn [Nat.add app walk]. rewrite Hh, Hscan, Hst.
  rewrite <- Nat.add_assoc, Hn1. apply Hn2.
Qed.

Lemma discover_from_ends (m : Z) (roots : list path) :
  max_depth o = Some m ->
  forall ys seen, exists fuel,
    is_Some (discover_from fuel fs o roots ys seen).
Proof.
  intros Hm. induction roots as [|root roots IH]; intros ys seen.
  { exists 0%nat. now eexists. }
  cbn [discover_from].
  destruct (path_is_file fs root); [apply IH|].
  destruct (negb (path_exists fs root)); [apply IH|].
  destruct (walk_frames_end m Hm (room m (root, 0)) [(root, 0)]
              (Forall_cons_2 _ _ _ (le_n _) (Forall_nil_2 _)) [] ys seen)
    as (n & ys1 & seen1 & Hn).
  specialize (Hn 0%nat). cbn [app walk] in Hn. rewrite Nat.add_0_r in Hn.
  destruct (IH ys1 seen1) as (fuel & r & Hr).
  exists (Nat.max n fuel).
  rewrite (walk_fuel_mono fs o n _ _ _ Hn) by lia.
  exists r. apply (discover_from_fuel_mono fs o fuel); [assumption|lia].
Qed.

(** *** A directory given again *)

Lemma quiet_mono (seen seen' : gset key) (d : path) :
  seen ⊆ seen' -> quiet fs o seen d -> quiet fs o seen' d.
Proof.
  intros Hsub [Hf|[Hn|(names & Hs & Hall)]]; [now left|right; now left|].
  right; right. exists names. split; [assumption|].
  intros n Hn. destruct (Hall n Hn) as [Hf|Hk]; [now left|right].
  now apply Hsub.
Qed.

Lemma scan_entry_quiet d k n st :
  filtered fs o (d ++ [n]) = true \/ key_of fs o (d ++ [n]) ∈ st.1.2 ->
  scan_entry fs o d k n st = st.
Proof.
  destruct st as [[ys seen] stack]. unfold scan_entry, filtered. cbn.
  intros [Hf|Hk]; [now rewrite Hf|].
  destruct (negb (include_hidden o) && is_hidden fs (d ++ [n]));
    [reflexivity|].
  now rewrite decide_True.
Qed.

Lemma scan_entries_quiet d k names st :
  (forall n, n ∈ names ->
     filtered fs o (d ++ [n]) = true \/ key_of fs o (d ++ [n]) ∈ st.1.2) ->
  scan_entries fs o d k names st = st.
Proof.
  unfold scan_entries. induction names as [|e names IH]; intros Hall;
    cbn [foldl]; [reflexivity|].
  rewrite scan_entry_quiet by (apply Hall; left).
  apply IH. intros n Hn. apply Hall. now right.
Qed.

Lemma walk_quiet fuel ys seen d k stack :
  quiet fs o seen d ->
  walk (S fuel) fs o (ys, seen, (d, k) :: stack)
  = walk fuel fs o (ys, seen, stack).
Proof.
  intros Hq. cbn [walk]. fold (filtered fs o d).
  destruct (filtered fs o d) eqn:Hf; [reflexivity|].
  destruct Hq as [Hq|[Hq|(names & Hs & Hall)]]; [congruence|now rewrite Hq|].
  rewrite Hs. now rewrite scan_entries_quiet.
Qed.

Lemma scan_entry_sees d k n st :
  filtered fs o (d ++ [n]) = true
  \/ key_of fs o (d ++ [n]) ∈ (scan_entry fs o d k n st).1.2.
Proof.
  destruct st as [[ys seen] stack]. unfold scan_entry, filtered.
  destruct (negb (include_hidden o) && is_hidden fs (d ++ [n]));
    [now left|right].
  fold (key_of fs o (d ++ [n])).
  destruct (decide (key_of fs o (d ++ [n]) ∈ seen)); [assumption|].
  destruct (entry_kind fs (follow_symlinks o) (d ++ [n])) as [[] []];
    repeat case_match; cbn; set_solver.
Qed.

Lemma scan_entries_grow d k names st :
  st.1.2 ⊆ (scan_entries fs o d k names st).1.2.
Proof.
  destruct (scan_entries_adds fs o d k names st) as (_ & _ & _ & _ & H & _).
  exact H.
Qed.

Lemma scan_entries_see d k names st n :
  n ∈ names ->
  filtered fs o (d ++ [n]) = true
  \/ key_of fs o (d ++ [n]) ∈ (scan_entries fs o d k names st).1.2.
Proof.
  unfold scan_entries. revert st.
  induction names as [|e names IH]; intros st Hn; [inversion Hn|].
  cbn [foldl]. apply elem_of_cons in Hn as [->|Hn]; [|now apply IH].
  destruct (scan_entry_sees d k e st) as [Hf|Hk]; [now left|right].
  now apply (scan_entries_grow d k names (scan_entry fs o d k e st)).
Qed.

Lemma walk_makes_quiet fuel ys seen d k stack r :
  walk fuel fs o (ys, seen, (d, k) :: stack) = Some r ->
  quiet fs o r.2 d.
Proof.
  destruct fuel as [|fuel]; [discriminate|]. cbn [walk].
  fold (filtered fs o d).
  destruct (filtered fs o d) eqn:Hf; [now left|].
  destruct (scandir fs d) as [names|] eqn:Hs; [|right; now left].
  intros Hw. right; right. exists names. split; [assumption|].
  intros n Hn.
  destruct (scan_entries_see d k names (ys, seen, stack) n Hn) as [Hh|Hk];
    [now left|right].
  apply walk_spec in Hw as (_ & _ & Hsub & _). now apply Hsub.
Qed.

Lemma discover_from_app fuel l1 l2 ys seen :
  discover_from fuel fs o (l1 ++ l2) ys seen
  = match discover_from fuel fs o l1 ys seen with
    | Some r => discover_from fuel fs o l2 r.1 r.2
    | None => None
    end.
Proof.
  revert ys seen. induction l1 as [|root l1 IH]; intros ys seen;
    cbn [app discover_from]; [reflexivity|].
  destruct (path_is_file fs root); [apply IH|].
  destruct (negb (path_exists fs root)); [apply IH|].
  destruct (walk fuel fs o (ys, seen, [(root, 0)])) as [[ys1 seen1]|];
    [apply IH|reflexivity].
Qed.

Lemma visited_root_is_quiet fuel pre root ys seen r :
  discover_from fuel fs o pre ys seen = Some r ->
  root ∈ pre -> path_is_file fs root = false ->
  path_exists fs root = true ->
  quiet fs o r.2 root /\ (0 < fuel)%nat.
Proof.
  revert ys seen. induction pre as [|p pre IH]; intros ys seen Hr Hin Hfile Hex;
    [inversion Hin|].
  cbn [discover_from] in Hr.
  destruct (decide (p = root)) as [->|Hne].
  - rewrite Hfile, Hex in Hr. cbn [negb] in Hr.
    destruct (walk fuel fs o (ys, seen, [(root, 0)])) as [[ys1 seen1]|] eqn:Hw;
      [|discriminate].
    split; [|destruct fuel; [discriminate|lia]].
    apply (quiet_mono seen1).
    + now apply discover_from_spec in Hr as (_ & _ & Hsub & _).
    + apply (walk_makes_quiet _ _ _ _ _ _ _ Hw).
  - apply elem_of_cons in Hin as [Heq|Hin]; [congruence|].
    destruct (path_is_file fs p); [now apply (IH _ _ Hr)|].
    destruct (negb (path_exists fs p)); [now apply (IH _ _ Hr)|].
    destruct (walk fuel fs o (ys, seen, [(p, 0)])) as [[ys1 seen1]|];
      [now apply (IH _ _ Hr)|discriminate].
Qed.

(** *** A file given as an input and found below another *)

Lemma scan_entries_yield d k n es st :
  filtered fs o (d ++ [n]) = false ->
  (entry_kind fs (follow_symlinks o) (d ++ [n])).1 = true ->
  n ∈ es -> key_of fs o (d ++ [n]) ∉ st.1.2 ->
  (forall e, e ∈ es ->
     key_of fs o (d ++ [e]) = key_of fs o (d ++ [n]) -> e = n) ->
  exists new,
    (scan_entries fs o d k es st).1.1 = st.1.1 ++ new /\ d ++ [n] ∈ new.
Proof.
  intros Hvis Hkind. unfold scan_entries. revert st.
  induction es as [|e es IH]; intros st Hin Hnew Hone; [inversion Hin|].
  cbn [foldl]. destruct (decide (e = n)) as [->|Hne].
  - destruct st as [[ys seen] stack]. cbn [fst snd] in *.
    rewrite (scan_entry_file fs o d k n ys seen stack Hvis Hnew Hkind).
    destruct (scan_entries_adds fs o d k es
                (ys ++ [d ++ [n]], {[key_of fs o (d ++ [n])]} ∪ seen, stack))
      as (y2 & _ & Hy & _).
    unfold scan_entries in Hy. cbn [fst snd] in Hy.
    exists ([d ++ [n]] ++ y2). rewrite Hy, <- app_assoc.
    split; [reflexivity|]. apply elem_of_app. left. left.
  - apply elem_of_cons in Hin as [Heq|Hin]; [congruence|].
    destruct (scan_entry_adds fs o d k [e] e st)
      as (y1 & _ & Hy & _ & _ & _ & _ & _ & Hbound); [left|].
    destruct (IH (scan_entry fs o d k e st) Hin) as (new & Hnew' & Hp).
    + intros Hk. apply Hbound in Hk as [Hk|(e' & He' & Hk)]; [done|].
      apply list_elem_of_singleton in He' as ->.
      apply Hne, Hone; [left|congruence].
    + intros e' He'. apply Hone. now right.
    + exists (y1 ++ new). rewrite Hnew', Hy, <- app_assoc.
      split; [reflexivity|]. apply elem_of_app. now right.
Qed.

Lemma walk_yields_listed_file fuel ys seen d n names r :
  filtered fs o d = false -> scandir fs d = Some names -> n ∈ names ->
  filtered fs o (d ++ [n]) = false ->
  (entry_kind fs (follow_symlinks o) (d ++ [n])).1 = true ->
  key_of fs o (d ++ [n]) ∉ seen ->
  (forall e, e ∈ names ->
     key_of fs o (d ++ [e]) = key_of fs o (d ++ [n]) -> e = n) ->
  walk fuel fs o (ys, seen, [(d, 0)]) = Some r ->
  exists l1 l2, r.1 = ys ++ l1 ++ (d ++ [n]) :: l2.
Proof.
  intros Hd Hs Hn Hvis Hkind Hnew Hone.
  destruct fuel as [|fuel]; [discriminate|]. cbn [walk].
  unfold filtered in Hd. rewrite Hd, Hs. intros Hw.
  destruct (scan_entries_yield d 0 n names (ys, seen, @nil (path * Z))
              Hvis Hkind Hn Hnew Hone) as (new & Hy & Hp).
  apply walk_spec in Hw as (more & Hr & _).
  apply list_elem_of_split in Hp as (l1 & l2 & ->).
  exists l1, (l2 ++ more).
  etrans; [exact Hr|].
  etrans; [apply (f_equal (fun l => l ++ more)); exact Hy|].
  cbn [fst]. now rewrite <- !app_assoc.
Qed.

End Walks.

(** X13: with a depth limit the traversal ends on every file system,
    also one on which links make a directory lie below itself and
    nothing bounds the keys: there is a number of passes of the [while]
    loop after which [discover_files] has returned. *)
Theorem depth_limit_ends_traversal (fs : FS) (o : Options) (m : Z)
    (roots : list path) :
  max_depth o = Some m ->
  exists fuel, forall fuel', (fuel <= fuel')%nat ->
    is_Some (discover_files fuel' fs o roots).
Proof.
  intros Hm.
  destruct (discover_from_ends fs o m roots Hm [] ∅) as (fuel & r & Hr).
  exists fuel. intros fuel' Hle. unfold discover_files.
  rewrite (discover_from_fuel_mono fs o fuel fuel' _ _ _ _ Hr Hle).
  now eexists.
Qed.

Lemma depth_limit_ends_traversal_witness :
  exists fuel, forall fuel', (fuel <= fuel')%nat ->
    is_Some (discover_files fuel' Sample.fs (Sample.following (Some 3))
               [["r"]]).
Proof.
  apply (depth_limit_ends_traversal Sample.fs (Sample.following (Some 3)) 3
           [["r"]]).
  reflexivity.
Defined.

(** X14: a directory given more than once among the inputs is walked
    once.  The later occurrence yields nothing and changes nothing: the
    run is the run without it. *)
Theorem directory_given_again_adds_nothing (fs : FS) (o : Options)
    (fuel : nat) (pre rest : list path) (root : path) :
  root ∈ pre -> path_is_file fs root = false ->
  discover_files fuel fs o (pre ++ root :: rest)
  = discover_files fuel fs o (pre ++ rest).
Proof.
  intros Hin Hfile. unfold discover_files. f_equal.
  rewrite !discover_from_app.
  destruct (discover_from fuel fs o pre [] ∅) as [r|] eqn:Hr; [|reflexivity].
  cbn [discover_from]. rewrite Hfile.
  destruct (path_exists fs root) eqn:Hex; [|reflexivity]. cbn [negb].
  destruct (visited_root_is_quiet fs o fuel pre root [] ∅ r Hr Hin Hfile Hex)
    as [Hq Hfuel].
  destruct fuel as [|fuel]; [lia|].
  rewrite (walk_quiet fs o fuel r.1 r.2 root 0 [] Hq).
  now destruct fuel.
Qed.

Lemma directory_given_again_adds_nothing_witness :
  discover_files 8 Tree.fs (Tree.limited 5) ([["r"]] ++ ["r"] :: [])
  = discover_files 8 Tree.fs (Tree.limited 5) ([["r"]] ++ []).
Proof.
  apply (directory_given_again_adds_nothing Tree.fs (Tree.limited 5) 8
           [["r"]] [] ["r"]).
  - left.
  - reflexivity.
Defined.

(** X15: the inputs are not checked against one another.  A regular
    file given as an input is yielded without a look at the seen-set and
    without its key being put there, so a file that is given itself and
    also lies in a directory that is given is yielded twice, whichever
    comes first. *)
Theorem file_given_and_found_is_yielded_twice (fs : FS) (o : Options)
    (fuel : nat) (d : path) (n : string) (names : list string)
    (roots ys : list path) :
  path_is_file fs (d ++ [n]) = true ->
  path_is_file fs d = false -> path_exists fs d = true ->
  filtered fs o d = false -> scandir fs d = Some names -> n ∈ names ->
  filtered fs o (d ++ [n]) = false ->
  (entry_kind fs (follow_symlinks o) (d ++ [n])).1 = true ->
  (forall e, e ∈ names ->
     key_of fs o (d ++ [e]) = key_of fs o (d ++ [n]) -> e = n) ->
  roots = [d ++ [n]; d] \/ roots = [d; d ++ [n]] ->
  discover_files fuel fs o roots = Some ys ->
  exists l1 l2 l3, ys = l1 ++ (d ++ [n]) :: l2 ++ (d ++ [n]) :: l3.
Proof.
  intros Hfile Hdir Hex Hd Hs Hn Hvis Hkind Hone Hroots.
  unfold discover_files.
  destruct Hroots as [-> | ->]; cbn [discover_from];
    rewrite ?Hfile, ?Hdir, ?Hex; cbn [negb].
  - destruct (walk _ _ _ _)
      as [[ys1 seen1]|] eqn:Hw; [|now cbn].
    destruct (walk_yields_listed_file fs o fuel _ _ d n names _ Hd Hs Hn Hvis
                Hkind (not_elem_of_empty _) Hone Hw) as (l1 & l2 & Hr).
    cbn in Hr. subst ys1. cbn. intros Heq. inversion Heq; subst ys.
    now exists [], l1, l2.
  - destruct (walk _ _ _ _)
      as [[ys1 seen1]|] eqn:Hw; [|now cbn].
    destruct (walk_yields_listed_file fs o fuel _ _ d n names _ Hd Hs Hn Hvis
                Hkind (not_elem_of_empty _) Hone Hw) as (l1 & l2 & Hr).
    cbn in Hr. subst ys1. rewrite ?Hfile. cbn.
    intros Heq. inversion Heq; subst ys.
    exists l1, l2, []. now rewrite <- app_assoc.
Qed.

Lemma file_given_and_found_is_yielded_twice_witness :
  exists l1 l2 l3,
    [["r"; "a.txt"]; ["r"; "a.txt"]; ["r"; "sub"; "deep.txt"]]
    = l1 ++ (["r"] ++ ["a.txt"]) :: l2 ++ (["r"] ++ ["a.txt"]) :: l3.
Proof.
  apply (file_given_and_found_is_yielded_twice Tree.fs (Tree.limited 1) 4
           ["r"] "a.txt" ["a.txt"; ".hid"; "sub"]
           [["r"; "a.txt"]; ["r"]]);
    try reflexivity.
  - set_solver.
  - intros e He Hk.
    repeat (apply elem_of_cons in He as [->|He]); try (by inversion He);
      try reflexivity; vm_compute in Hk; discriminate.
  - now left.
Defined.



End DiscoveryMore.

Module DriverFacts.
Import Invariants Driver DiscoveryFacts.

Lemma count_occ_filter_kept {A} (eq_dec : forall x y : A, {x = y} + {x <> y})
    (f : A -> bool) (l : list A) (x : A) :
  f x = true ->
  count_occ eq_dec (List.filter f l) x = count_occ eq_dec l x.
Proof.
  intros Hx. induction l as [|y l IH]; [reflexivity|]. cbn [List.filter].
  destruct (eq_dec y x) as [->|Hne].
  - rewrite Hx. cbn [count_occ]. destruct (eq_dec x x); [|done].
    now rewrite IH.
  - rewrite (count_occ_cons_neq eq_dec l Hne).
    destruct (f y); [|assumption].
    now rewrite (count_occ_cons_neq eq_dec _ Hne).
Qed.

(** X16: an input that is an existing regular file is gathered as many
    times as it is given, at least: neither the hidden filter, nor the
    depth limit, nor the seen-set is applied to it. *)
Theorem listed_files_are_gathered (fs : FS) (o : Options) (fuel : nat)
    (inputs files : list path) (p : path) :
  gather_file_list fuel fs o inputs = Some files ->
  path_is_file fs p = true -> path_exists fs p = true ->
  (count_occ (List.list_eq_dec String.string_dec) inputs p
   <= count_occ (List.list_eq_dec String.string_dec) files p)%nat.
Proof.
  unfold gather_file_list, discover_files. intros Hg Hfile Hex.
  destruct (discover_from fuel fs o inputs [] ∅) as [r|] eqn:Hr;
    [|discriminate].
  cbn in Hg. inversion Hg; subst files; clear Hg.
  apply discover_from_spec in Hr as (tr & Hperm & _).
  rewrite count_occ_filter_kept by now rewrite Hfile, Hex.
  cbn [app] in Hperm.
  rewrite (proj1 (Permutation_count_occ _ _ _) Hperm p), count_occ_app.
  rewrite count_occ_filter_kept by assumption.
  apply Nat.le_add_r.
Qed.

Lemma listed_files_are_gathered_witness :
  (count_occ (List.list_eq_dec String.string_dec)
     [["r"; ".hid"]; ["r"; ".hid"]] ["r"; ".hid"]
   <= count_occ (List.list_eq_dec String.string_dec)
        [["r"; ".hid"]; ["r"; ".hid"]] ["r"; ".hid"])%nat.
Proof.
  apply (listed_files_are_gathered Tree.fs (Tree.limited 0) 1
           [["r"; ".hid"]; ["r"; ".hid"]] [["r"; ".hid"]; ["r"; ".hid"]]
           ["r"; ".hid"]); reflexivity.
Defined.

Section GuardFacts.
Context {P : Type} `{EqDecision P} (resolve_path : path -> option P).




End GuardFacts.

End DriverFacts.
